(** * The sidecar transformer: a directive-driven resource-graph builder

    A shallow embedding of [src/sidecarTransformer.ts].  The transformer
    receives an annotated object type, checks that it also carries the
    [model] directive, makes sure that one role, one data source and one
    function configuration exist per [(name, region)] target, and attaches
    five resolvers to them.  All of this is written into a shared
    [TransformerContext].

    Strings are [string]s of ASCII characters (GraphQL names are ASCII);
    the JS value [undefined] of an optional argument is [None]. *)

From Stdlib Require Import Ascii String.
From stdpp Require Import base option list strings gmap.

Local Open Scope string_scope.
Local Open Scope list_scope.
#[local] Set Warnings "-register-all,-clear-no-such-hyp".

(** ** JavaScript string primitives used by the source *)

Module JS.

(** [s.substring(n)] *)
Fixpoint substring_from (n : nat) (s : string) : string :=
  match n, s with
  | S n', String _ s' => substring_from n' s'
  | _, _ => s
  end.

(** [s.match(/pat/) !== null] for a literal pattern [pat] *)
Fixpoint includes (pat s : string) : bool :=
  if String.prefix pat s then true
  else match s with
       | EmptyString => false
       | String _ s' => includes pat s'
       end.

(** [s.replace(/pat/, '')] for a literal pattern [pat] and a regular
    expression without the [g] flag: the leftmost match is removed. *)
Fixpoint replace_first (pat s : string) : string :=
  if String.prefix pat s then substring_from (String.length pat) s
  else match s with
       | EmptyString => EmptyString
       | String c s' => String c (replace_first pat s')
       end.

(** [c.toUpperCase()] on one ASCII character *)
Definition toUpperCase (c : ascii) : ascii :=
  let n := nat_of_ascii c in
  if (97 <=? n)%nat && (n <=? 122)%nat then ascii_of_nat (n - 32) else c.

(** Truthiness of an optional string: [undefined] and [''] are falsy. *)
Definition truthy (v : option string) : bool :=
  match v with
  | Some (String _ _) => true
  | _ => false
  end.

End JS.

(** ** CloudFormation intrinsic functions ([Fn] of cloudform-types) *)

Module Fn.

Inductive Value : Type :=
| Lit (s : string)
| Ref (logicalId : string)
| GetAtt (logicalId attribute : string)
| Join (separator : string) (parts : list Value)
| Sub (template : string) (substitutions : list (string * Value))
| If (condition : string) (whenTrue whenFalse : Value).

End Fn.

(** ** Mapping-template expressions ([graphql-mapping-template]) *)

Inductive Expression : Type :=
| obj (attributes : list (string * Expression))
| str (s : string)
| ref (s : string)
| qref (s : string)
| raw (s : string)
| iff (condition body : Expression)
| compoundExpression (expressions : list Expression).

(** ** The environment-aware address of the remote function *)

Definition SIDECAR_DIRECTIVE_STACK : string := "FunctionDirectiveStack".

Definition lambdaArnKey (name : string) (region : option string) : string :=
  if JS.truthy region
  then "arn:aws:lambda:" +:+ default EmptyString region
         +:+ ":${AWS::AccountId}:function:" +:+ name
  else "arn:aws:lambda:${AWS::Region}:${AWS::AccountId}:function:" +:+ name.

Definition referencesEnv (value : string) : bool :=
  JS.includes "${env}" value.

Definition removeEnvReference (value : string) : string :=
  JS.replace_first "-${env}" value.

(** ** Resource descriptors (cloudform-types) *)

(** A JS value that is either one item or an array of items, as the
    [Action] of a policy statement and the [DependsOn] of a resource are. *)
Inductive OneOrMany (A : Type) : Type :=
| One (a : A)
| Many (l : list A).
Arguments One {A} a.
Arguments Many {A} l.

Definition items {A : Type} (v : OneOrMany A) : list A :=
  match v with
  | One a => [a]
  | Many l => l
  end.

Record Statement : Type := {
  Effect : string;
  Principal_Service : option string;
  Action : OneOrMany string;
  Resource_ : option Fn.Value
}.

Record PolicyDocument : Type := {
  Version : string;
  Statements : list Statement
}.

Record Policy : Type := {
  PolicyName : string;
  PolicyDocument_ : PolicyDocument
}.

Module IAM.
Record Role : Type := {
  RoleName : Fn.Value;
  AssumeRolePolicyDocument : PolicyDocument;
  Policies : list Policy
}.
End IAM.

Module AppSync.
Record DataSource : Type := {
  ds_ApiId : Fn.Value;
  ds_Name : string;
  ds_Type : string;
  ds_ServiceRoleArn : Fn.Value;
  ds_LambdaFunctionArn : Fn.Value
}.

Record FunctionConfiguration : Type := {
  fc_ApiId : Fn.Value;
  fc_Name : string;
  fc_DataSourceName : string;
  fc_FunctionVersion : string;
  fc_RequestMappingTemplate : string;
  fc_ResponseMappingTemplate : string
}.

Record Resolver : Type := {
  rs_ApiId : Fn.Value;
  rs_TypeName : string;
  rs_FieldName : string;
  rs_Kind : string;
  rs_DataSourceName : string;
  rs_RequestMappingTemplate : string;
  rs_ResponseMappingTemplate : string
}.
End AppSync.

Inductive Properties : Type :=
| RoleProperties (p : IAM.Role)
| DataSourceProperties (p : AppSync.DataSource)
| FunctionConfigurationProperties (p : AppSync.FunctionConfiguration)
| ResolverProperties (p : AppSync.Resolver).

(** A resource is created by [new T(properties)]; [.dependsOn(d)] stores
    [d] in its [DependsOn] field. *)
Record Resource : Type := {
  properties : Properties;
  DependsOn : option (OneOrMany string)
}.

Definition new (p : Properties) : Resource :=
  {| properties := p; DependsOn := None |}.

Definition dependsOn (d : OneOrMany string) (r : Resource) : Resource :=
  {| properties := properties r; DependsOn := Some d |}.

(** The keys a descriptor depends on. *)
Definition dependencies (r : Resource) : list string :=
  match DependsOn r with
  | None => []
  | Some d => items d
  end.

Inductive Purpose : Type := Role | DataSource | FunctionConfig | Resolver.

Definition purpose (r : Resource) : Purpose :=
  match properties r with
  | RoleProperties _ => Role
  | DataSourceProperties _ => DataSource
  | FunctionConfigurationProperties _ => FunctionConfig
  | ResolverProperties _ => Resolver
  end.


(** ** The schema nodes the transformer reads (graphql) *)

Record NameNode : Type := { value : string }.

Record DirectiveNode : Type := {
  directive_name : NameNode;
  directive_arguments : list (string * string)
}.

Record ObjectTypeDefinitionNode : Type := {
  name : NameNode;
  directives : option (list DirectiveNode)
}.

(** The result of [getDirectiveArguments] for [@sidecar(name: String!,
    region: String)]. *)
Record DirectiveArguments : Type := {
  arg_name : string;
  arg_region : option string
}.

(** ** Imported collaborators

    These functions and constants are imported by the source from
    [graphql-transformer-common], [graphql-transformer-core] and
    [graphql-mapping-template]; they are not part of this repository and
    are taken as parameters. *)

Class Imports : Type := {
  (* FunctionResourceIDs *)
  FunctionDataSourceID : string → option string → string;
  FunctionIAMRoleID : string → option string → string;
  FunctionIAMRoleName : string → bool → string;
  FunctionAppSyncFunctionConfigurationID : string → option string → string;
  (* ResourceConstants *)
  PARAMETERS_Env : string;
  CONDITIONS_HasEnvironmentParameter : string;
  RESOURCES_GraphQLAPILogicalID : string;
  (* helpers *)
  plurality : string → bool → string;
  getDirectiveArguments : DirectiveNode → DirectiveArguments;
  printBlock : string → Expression → string
}.

(** ** The transformer context and the effects of a pass

    [TransformerContext] is the shared registry: [setResource] stores a
    descriptor under a key (overwriting), [getResource] reads it back and
    [mapResourceToStack] records the stack of a key.  A computation also
    yields the list of the mutating calls it made, in order, and either a
    value or the exception it threw; the context keeps what was written
    before a throw. *)

Record TransformerContext : Type := {
  Resources : gmap string Resource;
  stackMapping : gmap string string
}.

Inductive Call : Type :=
| SetResource (key : string) (resource : Resource)
| MapResourceToStack (stackName key : string).

Inductive Error : Type :=
| InvalidDirectiveError (message : string)
| TypeError (message : string).

Record Outcome (A : Type) : Type := {
  result : Error + A;
  context : TransformerContext;
  calls : list Call
}.
Arguments result {A} o.
Arguments context {A} o.
Arguments calls {A} o.

Definition Pass (A : Type) : Type := TransformerContext → Outcome A.

Definition ret {A : Type} (a : A) : Pass A :=
  λ ctx, {| result := inr a; context := ctx; calls := [] |}.

Definition throw {A : Type} (e : Error) : Pass A :=
  λ ctx, {| result := inl e; context := ctx; calls := [] |}.

Definition bind {A B : Type} (m : Pass A) (f : A → Pass B) : Pass B :=
  λ ctx,
    let o := m ctx in
    match result o with
    | inl e => {| result := inl e; context := context o; calls := calls o |}
    | inr a =>
        let o' := f a (context o) in
        {| result := result o'; context := context o';
           calls := calls o ++ calls o' |}
    end.

#[export] Instance Pass_ret : MRet Pass := @ret.
#[export] Instance Pass_bind : MBind Pass := λ A B f m, bind m f.

(** Modelled from the spec: the registry interface of the imported
    [TransformerContext] (spec 6): [getResource(key)] yields the descriptor
    stored under [key] or nothing. *)
Definition getResource (key : string) : Pass (option Resource) :=
  λ ctx, {| result := inr (Resources ctx !! key); context := ctx; calls := [] |}.

(** Modelled from the spec: [setResource(key, descriptor)] of the imported
    [TransformerContext] (spec 6) stores the descriptor under [key] and
    overwrites what was there. *)
Definition setResource (key : string) (resource : Resource) : Pass unit :=
  λ ctx,
    {| result := inr tt;
       context := {| Resources := <[key := resource]> (Resources ctx);
                     stackMapping := stackMapping ctx |};
       calls := [SetResource key resource] |}.

(** Modelled from the spec: [mapResourceToStack(groupTag, key)] of the
    imported [TransformerContext] (spec 6) records the stack of [key] in
    the stack membership table. *)
Definition mapResourceToStack (stackName key : string) : Pass unit :=
  λ ctx,
    {| result := inr tt;
       context := {| Resources := Resources ctx;
                     stackMapping := <[key := stackName]> (stackMapping ctx) |};
       calls := [MapResourceToStack stackName key] |}.

(** [if (cond) { body }] *)
Definition when (cond : bool) (body : Pass unit) : Pass unit :=
  if cond then body else ret tt.

(** [!v] for a value that is an object or [undefined]: objects are truthy. *)
Definition not_ {A : Type} (v : option A) : bool :=
  match v with
  | None => true
  | Some _ => false
  end.

(** The double-quote character inside a template string. *)
Definition dq : string := String (ascii_of_nat 34) EmptyString.

(** ** The transformer *)

Record LambdaFunctionResources : Type := {
  sidecarLambdaFunctionId : string;
  sidecarLambdaDataSourceName : string
}.

Section SidecarTransformer.

Context `{Imports}.

Definition lambdaArnResource (name : string) (region : option string) : Fn.Value :=
  let substitutions :=
    if referencesEnv name then [("env", Fn.Ref PARAMETERS_Env)] else [] in
  Fn.If CONDITIONS_HasEnvironmentParameter
    (Fn.Sub (lambdaArnKey name region) substitutions)
    (Fn.Sub (lambdaArnKey (removeEnvReference name) region) []).

Definition validateObject (definition : ObjectTypeDefinitionNode) : Pass unit :=
  match directives definition with
  | None => throw (InvalidDirectiveError "Type does not have any directives.")
  | Some direcectives =>
      let modelDirective :=
        List.find (λ dir, String.eqb (value (directive_name dir)) "model")
          direcectives in
      if not_ modelDirective
      then throw (InvalidDirectiveError
             "Types annotated with @sidecar must also be annotated with @model.")
      else ret tt
  end.

(** The role of [createLambdaFunctionResources]: [new IAM.Role({...})]. *)
Definition roleResource (name : string) (region : option string) : Resource :=
  new (RoleProperties {|
    IAM.RoleName :=
      Fn.If CONDITIONS_HasEnvironmentParameter
        (Fn.Join "-" [Fn.Lit (FunctionIAMRoleName name true);
                      Fn.GetAtt RESOURCES_GraphQLAPILogicalID "ApiId";
                      Fn.Ref PARAMETERS_Env])
        (Fn.Join "-" [Fn.Lit (FunctionIAMRoleName name false);
                      Fn.GetAtt RESOURCES_GraphQLAPILogicalID "ApiId"]);
    IAM.AssumeRolePolicyDocument := {|
      Version := "2012-10-17";
      Statements := [ {| Effect := "Allow";
                         Principal_Service := Some "appsync.amazonaws.com";
                         Action := One "sts:AssumeRole";
                         Resource_ := None |} ] |};
    IAM.Policies := [ {|
      PolicyName := "InvokeLambdaFunction";
      PolicyDocument_ := {|
        Version := "2012-10-17";
        Statements := [ {| Effect := "Allow";
                           Principal_Service := None;
                           Action := Many ["lambda:InvokeFunction"];
                           Resource_ := Some (lambdaArnResource name region) |} ]
      |} |} ] |}).

(** The data source: [new AppSync.DataSource({...}).dependsOn(iamRoleId)]. *)
Definition dataSourceResource (name : string) (region : option string) : Resource :=
  let iamRoleId := FunctionIAMRoleID name region in
  let sidecarLambdaDataSourceName := FunctionDataSourceID name region in
  dependsOn (One iamRoleId)
    (new (DataSourceProperties {|
       AppSync.ds_ApiId := Fn.GetAtt RESOURCES_GraphQLAPILogicalID "ApiId";
       AppSync.ds_Name := sidecarLambdaDataSourceName;
       AppSync.ds_Type := "AWS_LAMBDA";
       AppSync.ds_ServiceRoleArn := Fn.GetAtt iamRoleId "Arn";
       AppSync.ds_LambdaFunctionArn := lambdaArnResource name region |})).

(** The function configuration:
    [new AppSync.FunctionConfiguration({...}).dependsOn(sidecarLambdaDataSourceName)]. *)
Definition functionConfigurationResource (name : string) (region : option string)
  : Resource :=
  let sidecarLambdaDataSourceName := FunctionDataSourceID name region in
  let sidecarLambdaFunctionId :=
    FunctionAppSyncFunctionConfigurationID name region in
  dependsOn (One sidecarLambdaDataSourceName)
    (new (FunctionConfigurationProperties {|
       AppSync.fc_ApiId := Fn.GetAtt RESOURCES_GraphQLAPILogicalID "ApiId";
       AppSync.fc_Name := sidecarLambdaFunctionId;
       AppSync.fc_DataSourceName := sidecarLambdaDataSourceName;
       AppSync.fc_FunctionVersion := "2018-05-29";
       AppSync.fc_RequestMappingTemplate :=
         printBlock
           ("Invoke AWS Lambda data source: " +:+ sidecarLambdaDataSourceName)
           (obj [("version", str "2018-05-29");
                 ("operation", str "Invoke");
                 ("payload",
                  obj [("typeName",
                        str ("$ctx.stash.get(" +:+ dq +:+ "typeName" +:+ dq +:+ ")"));
                       ("fieldName",
                        str ("$ctx.stash.get(" +:+ dq +:+ "fieldName" +:+ dq +:+ ")"));
                       ("arguments", ref "util.toJson($ctx.arguments)");
                       ("identity", ref "util.toJson($ctx.identity)");
                       ("source", ref "util.toJson($ctx.source)");
                       ("request", ref "util.toJson($ctx.request)");
                       ("prev", ref "util.toJson($ctx.prev)")])]);
       AppSync.fc_ResponseMappingTemplate :=
         printBlock "Handle error or return result"
           (compoundExpression
              [iff (ref "ctx.error")
                   (raw "$util.error($ctx.error.message, $ctx.error.type)");
               raw "$util.toJson($ctx.result)"]) |})).

Definition createLambdaFunctionResources (directive : DirectiveNode)
  : Pass LambdaFunctionResources :=
  let name := arg_name (getDirectiveArguments directive) in
  let region := arg_region (getDirectiveArguments directive) in
  (* create new IAM role to execute firehose lambda if not yet existing *)
  let iamRoleId := FunctionIAMRoleID name region in
  existingRole ← getResource iamRoleId;
  when (not_ existingRole)
    (setResource iamRoleId (roleResource name region);;
     mapResourceToStack SIDECAR_DIRECTIVE_STACK iamRoleId);;
  (* create new lambda datasource for sidecar lambda if not yet existing *)
  let sidecarLambdaDataSourceName := FunctionDataSourceID name region in
  existingDataSource ← getResource sidecarLambdaDataSourceName;
  when (not_ existingDataSource)
    (setResource sidecarLambdaDataSourceName (dataSourceResource name region);;
     mapResourceToStack SIDECAR_DIRECTIVE_STACK sidecarLambdaDataSourceName);;
  (* create the sidecar lambda if not yet existing *)
  let sidecarLambdaFunctionId :=
    FunctionAppSyncFunctionConfigurationID name region in
  existingFunction ← getResource sidecarLambdaFunctionId;
  when (not_ existingFunction)
    (setResource sidecarLambdaFunctionId
       (functionConfigurationResource name region);;
     mapResourceToStack SIDECAR_DIRECTIVE_STACK sidecarLambdaFunctionId);;
  mret {| sidecarLambdaFunctionId := sidecarLambdaFunctionId;
          sidecarLambdaDataSourceName := sidecarLambdaDataSourceName |}.

(** The identifier of the resolver of [fieldName] on [typeName]; [None]
    when [fieldName] is empty, where [fieldName[0]] is [undefined]. *)
Definition resolverId (typeName fieldName : string) : option string :=
  match fieldName with
  | EmptyString => None
  | String c _ =>
      let fieldNameFirstletterUppercase :=
        String (JS.toUpperCase c) (JS.substring_from 1 fieldName) in
      Some (typeName +:+ fieldNameFirstletterUppercase +:+ "SidecarResolver")
  end.

(** The resolver: [new AppSync.Resolver({...}).dependsOn([sidecarLambdaFunctionId])]. *)
Definition resolverResource
  (sidecarLambdaFunctionId sidecarLambdaDataSourceName typeName fieldName : string)
  : Resource :=
  dependsOn (Many [sidecarLambdaFunctionId])
    (new (ResolverProperties {|
       AppSync.rs_ApiId := Fn.GetAtt RESOURCES_GraphQLAPILogicalID "ApiId";
       AppSync.rs_TypeName := typeName;
       AppSync.rs_FieldName := fieldName;
       AppSync.rs_Kind := "UNIT";
       AppSync.rs_DataSourceName := sidecarLambdaDataSourceName;
       AppSync.rs_RequestMappingTemplate :=
         printBlock "Stash resolver specific context."
           (compoundExpression
              [qref ("$ctx.stash.put(" +:+ dq +:+ "typeName" +:+ dq +:+ ", "
                       +:+ dq +:+ typeName +:+ dq +:+ ")");
               qref ("$ctx.stash.put(" +:+ dq +:+ "fieldName" +:+ dq +:+ ", "
                       +:+ dq +:+ fieldName +:+ dq +:+ ")");
               obj []]);
       AppSync.rs_ResponseMappingTemplate := "$util.toJson($ctx.result)" |})).

Definition createSidecarResolver
  (sidecarLambdaFunctionId sidecarLambdaDataSourceName typeName fieldName : string)
  : Pass unit :=
  match resolverId typeName fieldName with
  | None =>
      throw (TypeError "Cannot read properties of undefined (reading 'toUpperCase')")
  | Some sidecarResolverId =>
      (* create a new sidecar resolver and attach the sidecar functions *)
      setResource sidecarResolverId
        (resolverResource sidecarLambdaFunctionId sidecarLambdaDataSourceName
           typeName fieldName);;
      mapResourceToStack SIDECAR_DIRECTIVE_STACK sidecarResolverId
  end.

Definition object (definition : ObjectTypeDefinitionNode) (directive : DirectiveNode)
  : Pass unit :=
  validateObject definition;;
  r ← createLambdaFunctionResources directive;
  createSidecarResolver (sidecarLambdaFunctionId r) (sidecarLambdaDataSourceName r)
    "Mutation" ("create" +:+ value (name definition));;
  createSidecarResolver (sidecarLambdaFunctionId r) (sidecarLambdaDataSourceName r)
    "Mutation" ("update" +:+ value (name definition));;
  createSidecarResolver (sidecarLambdaFunctionId r) (sidecarLambdaDataSourceName r)
    "Mutation" ("delete" +:+ value (name definition));;
  createSidecarResolver (sidecarLambdaFunctionId r) (sidecarLambdaDataSourceName r)
    "Query" ("get" +:+ value (name definition));;
  createSidecarResolver (sidecarLambdaFunctionId r) (sidecarLambdaDataSourceName r)
    "Query" (plurality ("list" +:+ value (name definition)) true).

End SidecarTransformer.

(** ** The naming convention of the resource keys

    The source obtains its three registry keys from [FunctionResourceIDs]
    of [graphql-transformer-common], which is imported and absent from the
    repository.  The spec (4.1, Naming Resolver) only says that each key
    is a deterministic string computed from the purpose, the target name
    and the optional region.  [NamingModel] gives these functions the
    shape that package uses: the target name and the region are reduced to
    Pascal-cased identifiers, then [LambdaDataSource] is appended for the
    data source, [Role] after that for the role, and [Invoke] is put in
    front for the function configuration. *)

Module NamingModel.

Definition in_range (lo hi : nat) (c : ascii) : bool :=
  (lo <=? nat_of_ascii c)%nat && (nat_of_ascii c <=? hi)%nat.

(** [[_A-Za-z]] *)
Definition is_name_start (c : ascii) : bool :=
  Ascii.eqb c "_" || in_range 65 90 c || in_range 97 122 c.

(** [[_0-9A-Za-z]] *)
Definition is_name_char (c : ascii) : bool :=
  is_name_start c || in_range 48 57 c.

Definition is_space (c : ascii) : bool :=
  in_range 9 13 c || Ascii.eqb c " ".

(** [!val.trim()] *)
Fixpoint blank (s : string) : bool :=
  match s with
  | EmptyString => true
  | String c s' => is_space c && blank s'
  end.

(** Length up to and including the first closing brace. *)
Fixpoint through_brace (s : string) : option nat :=
  match s with
  | EmptyString => None
  | String c s' =>
      if Ascii.eqb c "}" then Some 1 else S <$> through_brace s'
  end.

(** Length of the match of [/-?_?\${[^}]*}/] at the start of [s]. *)
Definition placeholder_length (s : string) : option nat :=
  let '(n1, s1) :=
    match s with String "-" t => (1, t) | _ => (0, s) end in
  let '(n2, s2) :=
    match s1 with String "_" t => (1, t) | _ => (0, s1) end in
  match s2 with
  | String "$" (String "{" t) => (λ k, n1 + n2 + 2 + k) <$> through_brace t
  | _ => None
  end.

(** [val.replace(/-?_?\${[^}]*}/g, '')]; [skip] characters of a match are
    still to be dropped. *)
Fixpoint remove_placeholders (skip : nat) (s : string) : string :=
  match s with
  | EmptyString => EmptyString
  | String c s' =>
      match skip with
      | S k => remove_placeholders k s'
      | O =>
          match placeholder_length s with
          | Some n => remove_placeholders (pred n) s'
          | None => String c (remove_placeholders 0 s')
          end
      end
  end.

(** [val.replace(/^[^_A-Za-z]+|[^_0-9A-Za-z]/g, '|')]; [leading] holds
    while the scan is inside the run matched at the start of the string. *)
Fixpoint mark_separators (start leading : bool) (s : string) : string :=
  match s with
  | EmptyString => EmptyString
  | String c s' =>
      if (start || leading) && negb (is_name_start c) then
        if start then String "|" (mark_separators false true s')
        else mark_separators false true s'
      else if is_name_char c then String c (mark_separators false false s')
      else String "|" (mark_separators false false s')
  end.

(** [s.split('|')] *)
Fixpoint split_bar (s : string) : list string :=
  match s with
  | EmptyString => [EmptyString]
  | String c s' =>
      if Ascii.eqb c "|" then EmptyString :: split_bar s'
      else match split_bar s' with
           | w :: ws => String c w :: ws
           | [] => [String c EmptyString]
           end
  end.

Definition toUpper (word : string) : string :=
  match word with
  | EmptyString => EmptyString
  | String c rest => String (JS.toUpperCase c) rest
  end.

Definition toPascalCase (words : list string) : string :=
  foldr String.append EmptyString (toUpper <$> words).

(** Modelled from the spec: [simplifyName] of the imported naming
    library, the identifier-safe form of a target name or region. *)
Definition simplifyName (val : string) : string :=
  if blank val then EmptyString
  else toPascalCase (split_bar (mark_separators true false (remove_placeholders 0 val))).

(** Modelled from the spec: the data-source key of the Naming Resolver
    ([FunctionResourceIDs.FunctionDataSourceID], imported). *)
Definition FunctionDataSourceID (name : string) (region : option string) : string :=
  simplifyName name +:+ simplifyName (default EmptyString region)
    +:+ "LambdaDataSource".

(** Modelled from the spec: the role key of the Naming Resolver
    ([FunctionResourceIDs.FunctionIAMRoleID], imported). *)
Definition FunctionIAMRoleID (name : string) (region : option string) : string :=
  FunctionDataSourceID name region +:+ "Role".

(** Modelled from the spec: the function-configuration key of the Naming
    Resolver ([FunctionResourceIDs.FunctionAppSyncFunctionConfigurationID],
    imported). *)
Definition FunctionAppSyncFunctionConfigurationID
  (name : string) (region : option string) : string :=
  "Invoke" +:+ FunctionDataSourceID name region.

End NamingModel.

(** ** A concrete set of collaborators

    Used to run the transformer on concrete inputs: the keys follow
    [NamingModel]; role display names are left unhashed, the plural adds
    an [s], and a block is rendered as its header comment only. *)

Module Fixture.

Definition lookup_argument (key : string) (args : list (string * string))
  : option string :=
  snd <$> List.find (λ a, String.eqb (fst a) key) args.

Definition readArguments (directive : DirectiveNode) : DirectiveArguments :=
  {| arg_name := default EmptyString
                   (lookup_argument "name" (directive_arguments directive));
     arg_region := lookup_argument "region" (directive_arguments directive) |}.

#[export] Instance imports : Imports := {|
  FunctionDataSourceID := NamingModel.FunctionDataSourceID;
  FunctionIAMRoleID := NamingModel.FunctionIAMRoleID;
  FunctionIAMRoleName := λ name withEnv, NamingModel.simplifyName name;
  FunctionAppSyncFunctionConfigurationID :=
    NamingModel.FunctionAppSyncFunctionConfigurationID;
  PARAMETERS_Env := "env";
  CONDITIONS_HasEnvironmentParameter := "HasEnvironmentParameter";
  RESOURCES_GraphQLAPILogicalID := "GraphQLAPI";
  plurality := λ val improvePluralization, val +:+ "s";
  getDirectiveArguments := readArguments;
  printBlock := λ comment body, "## [Start] " +:+ comment
|}.

Definition sidecar (target : string) : DirectiveNode :=
  {| directive_name := {| value := "sidecar" |};
     directive_arguments := [("name", target)] |}.

Definition modelDirective : DirectiveNode :=
  {| directive_name := {| value := "model" |}; directive_arguments := [] |}.

Definition Widget : ObjectTypeDefinitionNode :=
  {| name := {| value := "Widget" |};
     directives := Some [modelDirective; sidecar "myFn-${env}"] |}.

Definition Gadget : ObjectTypeDefinitionNode :=
  {| name := {| value := "Gadget" |};
     directives := Some [sidecar "myFn-${env}"; modelDirective] |}.

Definition Plain : ObjectTypeDefinitionNode :=
  {| name := {| value := "Plain" |};
     directives := Some [sidecar "myFn"] |}.

End Fixture.

(** ** Vocabulary of the statements *)

(** The context before any directive has been processed. *)
Definition emptyContext : TransformerContext :=
  {| Resources := ∅; stackMapping := ∅ |}.

(** The state a list of mutating calls leads to. *)
Definition apply_call (ctx : TransformerContext) (c : Call) : TransformerContext :=
  match c with
  | SetResource key resource =>
      {| Resources := <[key := resource]> (Resources ctx);
         stackMapping := stackMapping ctx |}
  | MapResourceToStack stackName key =>
      {| Resources := Resources ctx;
         stackMapping := <[key := stackName]> (stackMapping ctx) |}
  end.

Definition replay (cs : list Call) (ctx : TransformerContext) : TransformerContext :=
  foldl apply_call ctx cs.

(** A computation whose final context is the replay of its calls. *)
Definition faithful {A : Type} (m : Pass A) : Prop :=
  ∀ ctx, context (m ctx) = replay (calls (m ctx)) ctx.

(** Every call list of [m] satisfies [P]. *)
Definition emits {A : Type} (P : list Call → Prop) (m : Pass A) : Prop :=
  ∀ ctx, P (calls (m ctx)).

(** Every [setResource] is directly followed by the [mapResourceToStack]
    of the same key to the stack of the directive. *)
Inductive tagged : list Call → Prop :=
| tagged_nil : tagged []
| tagged_cons key resource cs :
    tagged cs →
    tagged (SetResource key resource
              :: MapResourceToStack SIDECAR_DIRECTIVE_STACK key :: cs).

(** The two calls that create one resource. *)
Definition creation (key : string) (resource : Resource) : list Call :=
  [SetResource key resource; MapResourceToStack SIDECAR_DIRECTIVE_STACK key].

(** The descriptors written by a call list, with their keys, in order. *)
Definition written (cs : list Call) : list (string * Resource) :=
  omap (λ c, match c with
             | SetResource key resource => Some (key, resource)
             | MapResourceToStack _ _ => None
             end) cs.

(** The purposes of the descriptors written by a call list, in order. *)
Definition purposes (cs : list Call) : list Purpose :=
  (λ kr, purpose kr.2) <$> written cs.

(** The order in which one pass may provision its resources. *)
Definition provisioningOrder : list Purpose :=
  [Role; DataSource; FunctionConfig;
   Resolver; Resolver; Resolver; Resolver; Resolver].

(** The last character of a string. *)
Fixpoint last_char (s : string) : option ascii :=
  match s with
  | EmptyString => None
  | String c EmptyString => Some c
  | String _ s' => last_char s'
  end.




Section Vocabulary.

Context `{Imports}.

(** The check-then-create pattern of [createLambdaFunctionResources]. *)
Definition ensure (key : string) (resource : Resource) : Pass unit :=
  existing ← getResource key;
  when (not_ existing)
    (setResource key resource;;
     mapResourceToStack SIDECAR_DIRECTIVE_STACK key).

Definition targetName (directive : DirectiveNode) : string :=
  arg_name (getDirectiveArguments directive).

Definition targetRegion (directive : DirectiveNode) : option string :=
  arg_region (getDirectiveArguments directive).

Definition roleKey (directive : DirectiveNode) : string :=
  FunctionIAMRoleID (targetName directive) (targetRegion directive).

Definition dataSourceKey (directive : DirectiveNode) : string :=
  FunctionDataSourceID (targetName directive) (targetRegion directive).

Definition functionConfigKey (directive : DirectiveNode) : string :=
  FunctionAppSyncFunctionConfigurationID
    (targetName directive) (targetRegion directive).

Definition builtKeys (directive : DirectiveNode) : LambdaFunctionResources :=
  {| sidecarLambdaFunctionId := functionConfigKey directive;
     sidecarLambdaDataSourceName := dataSourceKey directive |}.

(** The creation calls of the three shared resources, in source order. *)
Definition sharedCreations (directive : DirectiveNode) : list Call :=
  creation (roleKey directive)
    (roleResource (targetName directive) (targetRegion directive))
  ++ creation (dataSourceKey directive)
       (dataSourceResource (targetName directive) (targetRegion directive))
  ++ creation (functionConfigKey directive)
       (functionConfigurationResource
          (targetName directive) (targetRegion directive)).

(** The five fields the entry point attaches resolvers to, in source order. *)
Definition operations (definition : ObjectTypeDefinitionNode)
  : list (string * string) :=
  [("Mutation", "create" +:+ value (name definition));
   ("Mutation", "update" +:+ value (name definition));
   ("Mutation", "delete" +:+ value (name definition));
   ("Query", "get" +:+ value (name definition));
   ("Query", plurality ("list" +:+ value (name definition)) true)].

(** The calls of one run of the resolver attacher. *)
Definition attachment (directive : DirectiveNode) (operation : string * string)
  : list Call :=
  match resolverId operation.1 operation.2 with
  | None => []
  | Some sidecarResolverId =>
      creation sidecarResolverId
        (resolverResource (functionConfigKey directive) (dataSourceKey directive)
           operation.1 operation.2)
  end.

(** Each shared key of the directive is free or holds the directive's own
    descriptor, as after an earlier pass for the same target. *)
Definition sharedOrFree (directive : DirectiveNode) (m : gmap string Resource)
  : Prop :=
  let name := targetName directive in
  let region := targetRegion directive in
  (m !! roleKey directive = None
   ∨ m !! roleKey directive = Some (roleResource name region))
  ∧ (m !! dataSourceKey directive = None
     ∨ m !! dataSourceKey directive = Some (dataSourceResource name region))
  ∧ (m !! functionConfigKey directive = None
     ∨ m !! functionConfigKey directive
       = Some (functionConfigurationResource name region)).

(** The type carries a [model] directive. *)
Definition hasModel (definition : ObjectTypeDefinitionNode) : Prop :=
  ∃ ds d, directives definition = Some ds ∧ d ∈ ds
          ∧ value (directive_name d) = "model".

End Vocabulary.

(** * Properties *)

(** ** The embedding at concrete inputs *)

Example removeEnvReference_trailing : removeEnvReference "myFn-${env}" = "myFn".
Proof. reflexivity. Qed.

Example removeEnvReference_first_only :
  removeEnvReference "a-${env}-b-${env}" = "a-b-${env}".
Proof. reflexivity. Qed.

Example removeEnvReference_leading :
  removeEnvReference "${env}-myFn" = "${env}-myFn".
Proof. reflexivity. Qed.

Example lambdaArnKey_regional :
  lambdaArnKey "myFn" (Some "eu-west-1")
  = "arn:aws:lambda:eu-west-1:${AWS::AccountId}:function:myFn".
Proof. reflexivity. Qed.

Example simplifyName_region : NamingModel.simplifyName "us-east-1" = "UsEast1".
Proof. reflexivity. Qed.

Example simplifyName_placeholder :
  NamingModel.simplifyName "echo_fn-${env}" = "Echo_fn".
Proof. reflexivity. Qed.

Example model_role_key :
  NamingModel.FunctionIAMRoleID "foo" (Some "us-east-1")
  = "FooUsEast1LambdaDataSourceRole".
Proof. reflexivity. Qed.

Example widget_pass_keys :
  fst <$> written (calls (@object Fixture.imports Fixture.Widget
                            (Fixture.sidecar "myFn-${env}") emptyContext))
  = ["MyFnLambdaDataSourceRole"; "MyFnLambdaDataSource";
     "InvokeMyFnLambdaDataSource"; "MutationCreateWidgetSidecarResolver";
     "MutationUpdateWidgetSidecarResolver";
     "MutationDeleteWidgetSidecarResolver"; "QueryGetWidgetSidecarResolver";
     "QueryListWidgetsSidecarResolver"].
Proof. reflexivity. Qed.

Example plain_pass_rejected :
  result (@object Fixture.imports Fixture.Plain (Fixture.sidecar "myFn")
            emptyContext)
  = inl (InvalidDirectiveError
           "Types annotated with @sidecar must also be annotated with @model.").
Proof. reflexivity. Qed.

(** ** String primitives *)

#[local] Arguments String.append !_ _ / : simpl nomatch.

Section StringFacts.

Implicit Types (pat s t pre post : string) (c : ascii).

Lemma prefix_spec pat s :
  String.prefix pat s = true ↔ ∃ t, s = pat +:+ t.
Proof.
  revert s. induction pat as [|a pat IH]; intros [|b s]; simpl.
  - split; [by exists EmptyString | done].
  - split; [by exists (String b s) | done].
  - split; [done | by intros [t ?]].
  - destruct (ascii_dec a b) as [->|Hne].
    + rewrite IH. split; intros [t Ht]; exists t; simpl in *; congruence.
    + split; [done | intros [t Ht]; simpl in Ht; congruence].
Qed.

Lemma prefix_false pat s :
  String.prefix pat s = false ↔ ∀ t, s ≠ pat +:+ t.
Proof.
  rewrite <-not_true_iff_false, prefix_spec. split; [intros Hn t ->; eauto | intros Hn [t ->]; by eapply Hn].
Qed.

Lemma app_assoc_string s t u : (s +:+ t) +:+ u = s +:+ t +:+ u.
Proof. induction s; simpl; congruence. Qed.

Lemma includes_unfold pat s :
  JS.includes pat s =
    String.prefix pat s
    || match s with EmptyString => false | String _ s' => JS.includes pat s' end.
Proof.
  destruct s; unfold JS.includes; fold JS.includes;
    by destruct (String.prefix pat _).
Qed.

Lemma includes_here pat s : JS.includes pat (pat +:+ s) = true.
Proof.
  assert (String.prefix pat (pat +:+ s) = true) as Hp
    by (apply prefix_spec; eauto).
  rewrite includes_unfold, Hp. done.
Qed.

Lemma includes_cons pat c s :
  JS.includes pat s = true → JS.includes pat (String c s) = true.
Proof. intros Hs. rewrite includes_unfold, Hs. apply orb_true_r. Qed.

Lemma includes_app_r pat pre s :
  JS.includes pat s = true → JS.includes pat (pre +:+ s) = true.
Proof. intros Hs. induction pre; simpl append; [done | by apply includes_cons]. Qed.

Lemma includes_spec pat s :
  JS.includes pat s = true ↔ ∃ pre post, s = pre +:+ pat +:+ post.
Proof.
  split.
  - induction s as [|c s IH]; rewrite includes_unfold, orb_true_iff.
    + intros [Hp | ?]; [|done].
      apply prefix_spec in Hp as [t Ht]. by exists EmptyString, t.
    + intros [Hp | Hs].
      * apply prefix_spec in Hp as [t Ht]. by exists EmptyString, t.
      * destruct (IH Hs) as (pre & post & ->). by exists (String c pre), post.
  - intros (pre & post & ->). apply includes_app_r, includes_here.
Qed.

Lemma includes_false_inv pat c s :
  JS.includes pat (String c s) = false →
  String.prefix pat (String c s) = false ∧ JS.includes pat s = false.
Proof. rewrite includes_unfold. apply orb_false_iff. Qed.

Lemma replace_first_unfold pat s :
  JS.replace_first pat s =
    if String.prefix pat s then JS.substring_from (String.length pat) s
    else match s with
         | EmptyString => EmptyString
         | String c s' => String c (JS.replace_first pat s')
         end.
Proof. by destruct s. Qed.

Lemma replace_first_absent pat s :
  JS.includes pat s = false → JS.replace_first pat s = s.
Proof.
  induction s as [|c s IH]; rewrite replace_first_unfold, includes_unfold;
    intros [Hp Hs]%orb_false_iff; rewrite Hp; [done|]. by rewrite IH.
Qed.

Lemma substring_from_app pat s :
  JS.substring_from (String.length pat) (pat +:+ s) = s.
Proof. induction pat; simpl; [by destruct s | done]. Qed.

Lemma replace_first_here pat s : JS.replace_first pat (pat +:+ s) = s.
Proof.
  rewrite replace_first_unfold.
  assert (String.prefix pat (pat +:+ s) = true) as ->
    by (apply prefix_spec; eauto).
  apply substring_from_app.
Qed.

End StringFacts.

(** ** The environment placeholder *)

Section Placeholder.

Implicit Types (pre post value : string).

(** One step of comparing [pre +:+ rest] with a string that starts with a
    known character: either [pre] is exhausted or its head is known. *)
Local Ltac peel pre Ht :=
  destruct pre as [|? pre]; simpl in Ht;
  [try discriminate Ht | injection Ht as -> Ht].

Lemma strip_keeps_unhyphenated pre post :
  (∀ p, pre ≠ p +:+ "-") →
  JS.includes "${env}"
    (JS.replace_first "-${env}" (pre +:+ "${env}" +:+ post)) = true.
Proof.
  induction pre as [|c pre IH]; intros Hne;
    [cbn; apply (includes_here "${env}")|].
  rewrite replace_first_unfold.
  destruct (String.prefix _ _) eqn:Hp.
  - apply prefix_spec in Hp as [t Ht]. simpl in Ht. injection Ht as -> Ht.
    peel pre Ht; [by destruct (Hne EmptyString)|].
    do 5 (peel pre Ht). subst t. simpl.
    apply includes_app_r, (includes_here "${env}").
  - simpl append. apply includes_cons, IH. intros p ->.
    by apply (Hne (String c p)).
Qed.

Lemma strip_first_hyphenated pre post :
  JS.includes "-${env}" pre = false →
  JS.replace_first "-${env}" (pre +:+ "-${env}" +:+ post) = pre +:+ post.
Proof.
  induction pre as [|c pre IH]; intros Hpre;
    [apply (replace_first_here "-${env}")|].
  apply includes_false_inv in Hpre as [Hhere Hpre].
  rewrite replace_first_unfold.
  destruct (String.prefix _ (_ +:+ _)) eqn:Hp.
  - exfalso. apply prefix_spec in Hp as [t Ht]. simpl in Ht.
    injection Ht as -> Ht.
    do 6 (peel pre Ht). by apply (proj1 (prefix_false _ _) Hhere pre).
  - simpl append. f_equal. by apply IH.
Qed.

Lemma hyphenated_references pre post :
  referencesEnv (pre +:+ "-${env}" +:+ post) = true.
Proof. apply includes_app_r, (includes_cons _ "-"), (includes_here "${env}"). Qed.

Lemma removeEnvReference_unreferenced value :
  referencesEnv value = false → removeEnvReference value = value.
Proof.
  intros Href. apply replace_first_absent.
  apply not_true_iff_false. intros (pre & post & ->)%includes_spec.
  by rewrite hyphenated_references in Href.
Qed.

Lemma lambdaArnKey_references name region :
  referencesEnv name = true → referencesEnv (lambdaArnKey name region) = true.
Proof.
  intros Href. unfold lambdaArnKey.
  destruct region as [[|c r]|];
    rewrite <-?app_assoc_string; by apply includes_app_r.
Qed.

Lemma lambdaArnKey_region name r :
  JS.includes r (lambdaArnKey name (Some r)) = true.
Proof.
  destruct r as [|c r].
  - apply includes_spec. by exists EmptyString, (lambdaArnKey name (Some EmptyString)).
  - unfold lambdaArnKey. cbn [JS.truthy default from_option id].
    apply includes_app_r, includes_here.
Qed.

Lemma lambdaArnKey_account name region :
  JS.includes "${AWS::AccountId}" (lambdaArnKey name region) = true.
Proof.
  unfold lambdaArnKey. destruct (JS.truthy region).
  - do 2 apply includes_app_r.
    apply (includes_cons _ ":"), (includes_here "${AWS::AccountId}").
  - apply (includes_app_r _ "arn:aws:lambda:${AWS::Region}:"),
      (includes_here "${AWS::AccountId}").
Qed.

(** An empty region string is falsy and selects the same template as an
    absent region. *)
Lemma lambdaArnKey_empty_region name :
  lambdaArnKey name (Some EmptyString) = lambdaArnKey name None.
Proof. reflexivity. Qed.

End Placeholder.

(** ** The conditional address builder *)

Section AddressBuilder.

Context `{Imports}.

(** C5: for the target name [myFn-${env}] and any region, the conditional
    address has, when the environment parameter is defined, the address
    template of the original name with [env] bound to a reference to the
    environment parameter, and otherwise the address template of [myFn],
    the placeholder stripped, with no substitution. *)
Theorem lambdaArnResource_env_placeholder (region : option string) :
  lambdaArnResource "myFn-${env}" region =
    Fn.If CONDITIONS_HasEnvironmentParameter
      (Fn.Sub (lambdaArnKey "myFn-${env}" region)
         [("env", Fn.Ref PARAMETERS_Env)])
      (Fn.Sub (lambdaArnKey "myFn" region) []).
Proof. reflexivity. Qed.

(** C6: a target name without the placeholder [${env}] is used verbatim,
    with an empty substitution map, in both branches of the conditional
    address.  For every target name, the address template of a supplied
    region contains that region literal and the account pseudo-parameter,
    and the template of an absent region is the one with the region
    pseudo-parameter.  The source tests the region for truthiness: the
    template is the region-qualified one for a truthy region and the one
    with the region pseudo-parameter otherwise (JavaScript takes an empty
    region string for an absent one). *)
Theorem lambdaArnResource_no_placeholder (name : string) (region : option string) :
  (referencesEnv name = false →
   lambdaArnResource name region =
     Fn.If CONDITIONS_HasEnvironmentParameter
       (Fn.Sub (lambdaArnKey name region) [])
       (Fn.Sub (lambdaArnKey name region) []))
  ∧ (∀ r, region = Some r →
          JS.includes r (lambdaArnKey name region) = true
          ∧ JS.includes "${AWS::AccountId}" (lambdaArnKey name region) = true)
  ∧ (region = None →
     lambdaArnKey name region =
       "arn:aws:lambda:${AWS::Region}:${AWS::AccountId}:function:" +:+ name)
  ∧ (JS.truthy region = true →
     ∃ r, region = Some r ∧
       lambdaArnKey name region =
         "arn:aws:lambda:" +:+ r +:+ ":${AWS::AccountId}:function:" +:+ name)
  ∧ (JS.truthy region = false →
     lambdaArnKey name region =
       "arn:aws:lambda:${AWS::Region}:${AWS::AccountId}:function:" +:+ name).
Proof.
  split; [|split; [|split; [|split]]].
  - intros Href. unfold lambdaArnResource.
    by rewrite Href, removeEnvReference_unreferenced.
  - intros r ->. split; [apply lambdaArnKey_region | apply lambdaArnKey_account].
  - by intros ->.
  - destruct region as [[|c r]|]; [done| |done]. intros _. by eexists.
  - by destruct region as [[|c r]|].
Qed.

(** C10: [referencesEnv] finds [${env}] anywhere in a name, while
    [removeEnvReference] removes only the first [-${env}], hyphen
    included, and nothing when there is none.  So a name in which some
    [${env}] is not preceded by a hyphen keeps the literal token in the
    address template of the branch taken when the environment parameter is
    undefined, and that branch has an empty substitution map; the names
    [${env}-myFn] and [myFn${env}] are detected and left as they are. *)
Theorem placeholder_stripping_is_narrower :
  (∀ value, referencesEnv value = true ↔
            ∃ pre post, value = pre +:+ "${env}" +:+ post)
  ∧ (∀ pre post, JS.includes "-${env}" pre = false →
       removeEnvReference (pre +:+ "-${env}" +:+ post) = pre +:+ post)
  ∧ (∀ value, JS.includes "-${env}" value = false →
       removeEnvReference value = value)
  ∧ (∀ pre post region,
       (∀ p, pre ≠ p +:+ "-") →
       let name := pre +:+ "${env}" +:+ post in
       ∃ template,
         lambdaArnResource name region =
           Fn.If CONDITIONS_HasEnvironmentParameter
             (Fn.Sub (lambdaArnKey name region)
                [("env", Fn.Ref PARAMETERS_Env)])
             (Fn.Sub template [])
         ∧ template = lambdaArnKey (removeEnvReference name) region
         ∧ referencesEnv template = true)
  ∧ (referencesEnv "${env}-myFn" = true
     ∧ removeEnvReference "${env}-myFn" = "${env}-myFn"
     ∧ referencesEnv "myFn${env}" = true
     ∧ removeEnvReference "myFn${env}" = "myFn${env}").
Proof.
  split; [|split; [|split; [|split; [|done]]]].
  - intros value. apply includes_spec.
  - apply strip_first_hyphenated.
  - intros value. apply replace_first_absent.
  - intros pre post region Hpre name. eexists. split; [|split; [done|]].
    + unfold lambdaArnResource.
      assert (referencesEnv name = true) as ->; [|done].
      apply includes_app_r, (includes_here "${env}").
    + by apply lambdaArnKey_references, strip_keeps_unhyphenated.
Qed.

End AddressBuilder.

Lemma lambdaArnResource_no_placeholder_witness :
  referencesEnv "myFn" = false
  ∧ @lambdaArnResource Fixture.imports "myFn" (Some "us-east-1") =
      Fn.If "HasEnvironmentParameter"
        (Fn.Sub "arn:aws:lambda:us-east-1:${AWS::AccountId}:function:myFn" [])
        (Fn.Sub "arn:aws:lambda:us-east-1:${AWS::AccountId}:function:myFn" [])
  ∧ (∃ r, Some "us-east-1" = Some r ∧
       lambdaArnKey "myFn" (Some "us-east-1") =
         "arn:aws:lambda:" +:+ r +:+ ":${AWS::AccountId}:function:" +:+ "myFn")
  ∧ lambdaArnKey "myFn" None =
      "arn:aws:lambda:${AWS::Region}:${AWS::AccountId}:function:myFn".
Proof.
  split; [reflexivity|].
  split; [apply (@lambdaArnResource_no_placeholder Fixture.imports
                   "myFn" (Some "us-east-1")); reflexivity|].
  split; [apply (proj2 (proj2 (proj2
            (@lambdaArnResource_no_placeholder Fixture.imports
               "myFn" (Some "us-east-1"))))); reflexivity|].
  apply (@lambdaArnResource_no_placeholder Fixture.imports "myFn" None).
  reflexivity.
Defined.

Lemma placeholder_stripping_is_narrower_witness :
  (∀ p, "myFn" ≠ p +:+ "-")
  ∧ ∃ template,
      @lambdaArnResource Fixture.imports ("myFn" +:+ "${env}" +:+ EmptyString) None =
        Fn.If "HasEnvironmentParameter"
          (Fn.Sub (lambdaArnKey "myFn${env}" None) [("env", Fn.Ref "env")])
          (Fn.Sub template [])
      ∧ template = lambdaArnKey (removeEnvReference "myFn${env}") None
      ∧ referencesEnv template = true.
Proof.
  assert (∀ p, "myFn" ≠ p +:+ "-") as Hpre.
  { intros p Hp. do 4 (destruct p as [|? p]; [discriminate Hp|];
                       injection Hp as _ Hp).
    by destruct p. }
  split; [exact Hpre|].
  apply (proj1 (proj2 (proj2 (proj2 (@placeholder_stripping_is_narrower
                                       Fixture.imports))))
           "myFn" EmptyString None Hpre).
Defined.

(** ** Effects of a pass *)

Section Effects.

Context {A B : Type}.
Implicit Types (m : Pass A) (f : A → Pass B) (ctx : TransformerContext).

Lemma bind_ok m f ctx a :
  result (m ctx) = inr a →
  (m ≫= f) ctx =
    {| result := result (f a (context (m ctx)));
       context := context (f a (context (m ctx)));
       calls := calls (m ctx) ++ calls (f a (context (m ctx))) |}.
Proof. intros Hr. unfold mbind, Pass_bind, bind. by rewrite Hr. Qed.

Lemma bind_throw m f ctx e :
  result (m ctx) = inl e →
  (m ≫= f) ctx =
    {| result := inl e; context := context (m ctx); calls := calls (m ctx) |}.
Proof. intros Hr. unfold mbind, Pass_bind, bind. by rewrite Hr. Qed.

Lemma replay_app cs1 cs2 ctx :
  replay (cs1 ++ cs2) ctx = replay cs2 (replay cs1 ctx).
Proof. apply foldl_app. Qed.

End Effects.

Lemma tagged_app cs1 cs2 : tagged cs1 → tagged cs2 → tagged (cs1 ++ cs2).
Proof. induction 1; simpl; [done | constructor; auto]. Qed.

Lemma tagged_creation key resource : tagged (creation key resource).
Proof. repeat constructor. Qed.

Lemma tagged_set_mapped cs key resource :
  tagged cs → SetResource key resource ∈ cs →
  ∃ cs1 cs2, cs = cs1 ++ creation key resource ++ cs2 ∧ tagged cs1 ∧ tagged cs2.
Proof.
  induction 1 as [|k r cs Hcs IH]; [by intros ?%elem_of_nil|].
  rewrite !elem_of_cons. intros [Heq|[?|Hin]]; [|done|].
  - simplify_eq. exists [], cs. repeat split; [constructor | done].
  - destruct (IH Hin) as (cs1 & cs2 & -> & H1 & H2).
    exists (creation k r ++ cs1), cs2.
    repeat split; [|done]. by constructor.
Qed.

Lemma tagged_stack cs stackName key :
  tagged cs → MapResourceToStack stackName key ∈ cs →
  stackName = SIDECAR_DIRECTIVE_STACK.
Proof.
  induction 1 as [|k r cs Hcs IH]; [by intros ?%elem_of_nil|].
  rewrite !elem_of_cons. intros [?|[?|?]]; [done | by simplify_eq | auto].
Qed.

Lemma replay_stack cs ctx key :
  (∀ s k, MapResourceToStack s k ∈ cs → s = SIDECAR_DIRECTIVE_STACK) →
  (∃ s, MapResourceToStack s key ∈ cs) →
  stackMapping (replay cs ctx) !! key = Some SIDECAR_DIRECTIVE_STACK.
Proof.
  induction cs as [|c cs IH] using rev_ind; intros Htag [s Hin].
  { by apply elem_of_nil in Hin. }
  rewrite replay_app. simpl.
  assert (∀ s k, MapResourceToStack s k ∈ cs → s = SIDECAR_DIRECTIVE_STACK)
    as Htag' by (intros s' k' ?; apply (Htag s' k'), elem_of_app; by left).
  apply elem_of_app in Hin as [Hin|Hin%list_elem_of_singleton].
  - destruct c as [k r|s' k']; simpl; [by eauto|].
    destruct (decide (k' = key)) as [->|Hne].
    + rewrite lookup_insert_eq. f_equal.
      apply (Htag s' key), elem_of_app. right. by apply list_elem_of_singleton.
    + rewrite lookup_insert_ne; by eauto.
  - subst c. simpl. rewrite lookup_insert_eq. f_equal.
    apply (Htag s key), elem_of_app. right. by apply list_elem_of_singleton.
Qed.

(** ** The steps of the transformer *)

Section Steps.

Context `{Imports}.
Implicit Types (ctx : TransformerContext) (directive : DirectiveNode)
  (definition : ObjectTypeDefinitionNode).

Lemma ensure_present key resource ctx :
  is_Some (Resources ctx !! key) →
  ensure key resource ctx = {| result := inr tt; context := ctx; calls := [] |}.
Proof. intros [r Hr]. unfold ensure, mbind, Pass_bind, bind. simpl. by rewrite Hr. Qed.

Lemma ensure_absent key resource ctx :
  Resources ctx !! key = None →
  ensure key resource ctx =
    {| result := inr tt;
       context := {| Resources := <[key := resource]> (Resources ctx);
                     stackMapping := <[key := SIDECAR_DIRECTIVE_STACK]>
                                       (stackMapping ctx) |};
       calls := creation key resource |}.
Proof. intros Hr. unfold ensure, mbind, Pass_bind, bind. simpl. by rewrite Hr. Qed.

Lemma ensure_established key resource ctx :
  is_Some (Resources (context (ensure key resource ctx)) !! key).
Proof.
  destruct (Resources ctx !! key) eqn:Hr.
  - rewrite ensure_present; by rewrite ?Hr.
  - rewrite ensure_absent by done. simpl. by rewrite lookup_insert_eq.
Qed.

Lemma ensure_keeps key resource ctx k v :
  Resources ctx !! k = Some v →
  Resources (context (ensure key resource ctx)) !! k = Some v.
Proof.
  intros Hk. destruct (Resources ctx !! key) eqn:Hr.
  - rewrite ensure_present; by rewrite ?Hr.
  - rewrite ensure_absent by done. simpl.
    rewrite lookup_insert_ne; [done | congruence].
Qed.

Lemma ensure_other key resource ctx k :
  k ≠ key →
  Resources (context (ensure key resource ctx)) !! k = Resources ctx !! k.
Proof.
  intros Hne. destruct (Resources ctx !! key) eqn:Hr.
  - by rewrite ensure_present by (by rewrite Hr).
  - rewrite ensure_absent by done. simpl. by rewrite lookup_insert_ne.
Qed.

Lemma ensure_lookup key resource ctx :
  Resources (context (ensure key resource ctx)) !! key
    = Some (default resource (Resources ctx !! key)).
Proof.
  destruct (Resources ctx !! key) eqn:Hr.
  - by rewrite ensure_present by (by rewrite Hr).
  - rewrite ensure_absent by done. apply lookup_insert_eq.
Qed.

Lemma ensure_calls key resource ctx :
  calls (ensure key resource ctx) `sublist_of` creation key resource.
Proof.
  destruct (Resources ctx !! key) eqn:Hr.
  - rewrite ensure_present by (by rewrite Hr). apply sublist_nil_l.
  - by rewrite ensure_absent.
Qed.

Lemma check_then {B : Type} key resource (k : Pass B) ctx :
  (existing ← getResource key;
   when (not_ existing)
     (setResource key resource;;
      mapResourceToStack SIDECAR_DIRECTIVE_STACK key);;
   k) ctx =
    {| result := result (k (context (ensure key resource ctx)));
       context := context (k (context (ensure key resource ctx)));
       calls := calls (ensure key resource ctx)
                ++ calls (k (context (ensure key resource ctx))) |}.
Proof.
  unfold ensure, mbind, Pass_bind, bind, getResource.
  cbn [result context calls app].
  destruct (Resources ctx !! key); reflexivity.
Qed.

Lemma createLambdaFunctionResources_run directive ctx :
  let name := targetName directive in
  let region := targetRegion directive in
  let o1 := ensure (roleKey directive) (roleResource name region) ctx in
  let o2 := ensure (dataSourceKey directive) (dataSourceResource name region)
              (context o1) in
  let o3 := ensure (functionConfigKey directive)
              (functionConfigurationResource name region) (context o2) in
  createLambdaFunctionResources directive ctx =
    {| result := inr (builtKeys directive);
       context := context o3;
       calls := calls o1 ++ calls o2 ++ calls o3 |}.
Proof.
  intros name region o1 o2 o3.
  unfold createLambdaFunctionResources. cbv zeta.
  rewrite !check_then. unfold mret, Pass_ret, ret.
  cbn [result context calls]. by rewrite app_nil_r.
Qed.

Lemma createSidecarResolver_run functionId dataSourceName typeName fieldName
    sidecarResolverId ctx :
  resolverId typeName fieldName = Some sidecarResolverId →
  let resolver :=
    resolverResource functionId dataSourceName typeName fieldName in
  createSidecarResolver functionId dataSourceName typeName fieldName ctx =
    {| result := inr tt;
       context := {| Resources := <[sidecarResolverId := resolver]> (Resources ctx);
                     stackMapping := <[sidecarResolverId := SIDECAR_DIRECTIVE_STACK]>
                                       (stackMapping ctx) |};
       calls := creation sidecarResolverId resolver |}.
Proof. intros Hid. unfold createSidecarResolver. by rewrite Hid. Qed.

Lemma createSidecarResolver_throws functionId dataSourceName typeName fieldName ctx :
  resolverId typeName fieldName = None →
  ∃ e, createSidecarResolver functionId dataSourceName typeName fieldName ctx =
         {| result := inl e; context := ctx; calls := [] |}.
Proof. intros Hid. unfold createSidecarResolver. rewrite Hid. by eexists. Qed.

Lemma resolverId_nonempty typeName fieldName :
  fieldName ≠ EmptyString → is_Some (resolverId typeName fieldName).
Proof. by destruct fieldName. Qed.

Lemma validateObject_passes definition ctx :
  hasModel definition →
  validateObject definition ctx = {| result := inr tt; context := ctx; calls := [] |}.
Proof.
  intros (ds & d & Hds & Hd & Hname). unfold validateObject. rewrite Hds.
  destruct (List.find _ ds) eqn:Hfind; [done|].
  apply list_elem_of_In in Hd.
  eapply find_none in Hfind; [|done]. simpl in Hfind.
  by rewrite Hname in Hfind.
Qed.

Lemma validateObject_rejects definition ctx :
  (∀ ds d, directives definition = Some ds → d ∈ ds →
           value (directive_name d) ≠ "model") →
  ∃ message,
    validateObject definition ctx =
      {| result := inl (InvalidDirectiveError message);
         context := ctx; calls := [] |}.
Proof.
  intros Hno. unfold validateObject.
  destruct (directives definition) as [ds|] eqn:Hds; [|by eexists].
  destruct (List.find _ ds) as [d|] eqn:Hfind; [|by eexists].
  apply find_some in Hfind as [Hd Hname]. apply list_elem_of_In in Hd.
  apply String.eqb_eq in Hname. by destruct (Hno ds d).
Qed.

Lemma hasModel_or_not definition :
  hasModel definition ∨
  (∀ ds d, directives definition = Some ds → d ∈ ds →
           value (directive_name d) ≠ "model").
Proof.
  destruct (directives definition) as [ds|] eqn:Hds; [|by right].
  destruct (List.find (λ dir, String.eqb (value (directive_name dir)) "model") ds)
    as [d|] eqn:Hfind.
  - left. apply find_some in Hfind as [Hd Hname].
    exists ds, d. split; [done|].
    split; [by apply list_elem_of_In | by apply String.eqb_eq].
  - right. intros ds' d [= <-] Hd%list_elem_of_In Hname.
    eapply find_none in Hfind; [|done]. simpl in Hfind.
    by rewrite Hname in Hfind.
Qed.

End Steps.

(** ** The entry point *)

Section Entry.

Context `{Imports}.
Implicit Types (ctx : TransformerContext) (directive : DirectiveNode)
  (definition : ObjectTypeDefinitionNode).

Lemma attach_run directive typeName fieldName ctx :
  let attached := attachment directive (typeName, fieldName) in
  createSidecarResolver (functionConfigKey directive) (dataSourceKey directive)
    typeName fieldName ctx =
    {| result := match resolverId typeName fieldName with
                 | Some _ => inr tt
                 | None => inl (TypeError
                     "Cannot read properties of undefined (reading 'toUpperCase')")
                 end;
       context := replay attached ctx;
       calls := attached |}.
Proof.
  unfold createSidecarResolver, attachment. cbn [fst snd].
  by destruct (resolverId _ _).
Qed.

Lemma attach_then {B : Type} directive typeName fieldName (k : Pass B) ctx :
  is_Some (resolverId typeName fieldName) →
  let attached := attachment directive (typeName, fieldName) in
  (createSidecarResolver (functionConfigKey directive) (dataSourceKey directive)
     typeName fieldName;; k) ctx =
    {| result := result (k (replay attached ctx));
       context := context (k (replay attached ctx));
       calls := attached ++ calls (k (replay attached ctx)) |}.
Proof.
  intros [sidecarResolverId Hid] attached.
  rewrite (bind_ok _ _ _ tt); rewrite attach_run; [done|].
  cbn [result]. by rewrite Hid.
Qed.

Lemma object_run definition directive ctx :
  hasModel definition →
  let built := createLambdaFunctionResources directive ctx in
  let attached := concat (attachment directive <$> operations definition) in
  calls (object definition directive ctx) = calls built ++ attached
  ∧ context (object definition directive ctx) = replay attached (context built)
  ∧ (is_Some (resolverId "Query"
                (plurality ("list" +:+ value (name definition)) true)) →
     result (object definition directive ctx) = inr tt).
Proof.
  intros Hmodel built attached. subst attached.
  unfold object.
  rewrite (bind_ok _ _ _ tt)
    by (rewrite validateObject_passes; [reflexivity | assumption]).
  rewrite validateObject_passes by assumption.
  cbn [result context calls app].
  rewrite (bind_ok _ _ _ (builtKeys directive))
    by (rewrite createLambdaFunctionResources_run; reflexivity).
  fold built. cbn [builtKeys sidecarLambdaFunctionId sidecarLambdaDataSourceName].
  do 3 (rewrite (attach_then directive "Mutation") by (eexists; reflexivity)).
  rewrite (attach_then directive "Query") by (eexists; reflexivity).
  rewrite (attach_run directive "Query").
  cbn [result context calls operations fmap list_fmap concat].
  rewrite app_nil_r, !replay_app. split; [done|]. split; [done|].
  by intros [sidecarResolverId ->].
Qed.

Lemma object_rejects definition directive ctx :
  (∀ ds d, directives definition = Some ds → d ∈ ds →
           value (directive_name d) ≠ "model") →
  ∃ message,
    object definition directive ctx =
      {| result := inl (InvalidDirectiveError message);
         context := ctx; calls := [] |}.
Proof.
  intros Hno.
  destruct (validateObject_rejects definition ctx Hno) as [message Hv].
  exists message. unfold object.
  rewrite (bind_throw _ _ _ (InvalidDirectiveError message))
    by (by rewrite Hv).
  by rewrite Hv.
Qed.

Lemma faithful_ensure key resource : faithful (ensure key resource).
Proof.
  intros ctx. destruct (Resources ctx !! key) eqn:Hr.
  - by rewrite ensure_present by (by rewrite Hr).
  - by rewrite ensure_absent.
Qed.

Lemma faithful_createLambdaFunctionResources directive :
  faithful (createLambdaFunctionResources directive).
Proof.
  intros ctx. rewrite createLambdaFunctionResources_run.
  cbn [context calls]. rewrite !replay_app.
  by rewrite <-!faithful_ensure.
Qed.

Lemma tagged_ensure key resource : emits tagged (ensure key resource).
Proof.
  intros ctx. destruct (Resources ctx !! key) eqn:Hr.
  - rewrite ensure_present by (by rewrite Hr). constructor.
  - rewrite ensure_absent by done. apply tagged_creation.
Qed.

Lemma tagged_createLambdaFunctionResources directive :
  emits tagged (createLambdaFunctionResources directive).
Proof.
  intros ctx. rewrite createLambdaFunctionResources_run. cbn [calls].
  apply tagged_app; [apply tagged_ensure|].
  apply tagged_app; apply tagged_ensure.
Qed.

Lemma tagged_attachment directive operation :
  tagged (attachment directive operation).
Proof.
  unfold attachment. destruct (resolverId _ _);
    [apply tagged_creation | constructor].
Qed.

Lemma tagged_createSidecarResolver functionId dataSourceName typeName fieldName :
  emits tagged
    (createSidecarResolver functionId dataSourceName typeName fieldName).
Proof.
  intros ctx. unfold createSidecarResolver.
  destruct (resolverId _ _); [apply tagged_creation | constructor].
Qed.

Lemma object_cases definition directive ctx :
  let built := createLambdaFunctionResources directive ctx in
  let attached := concat (attachment directive <$> operations definition) in
  (calls (object definition directive ctx) = []
   ∧ context (object definition directive ctx) = ctx)
  ∨ (calls (object definition directive ctx) = calls built ++ attached
     ∧ context (object definition directive ctx) = replay attached (context built)).
Proof.
  destruct (hasModel_or_not definition) as [Hmodel|Hno].
  - right. by destruct (object_run definition directive ctx Hmodel) as (? & ? & _).
  - left. by destruct (object_rejects definition directive ctx Hno) as [? ->].
Qed.

Lemma faithful_object definition directive :
  faithful (object definition directive).
Proof.
  intros ctx.
  destruct (object_cases definition directive ctx) as [[-> ->]|[-> ->]];
    [done|].
  by rewrite replay_app, <-faithful_createLambdaFunctionResources.
Qed.

Lemma tagged_object definition directive :
  emits tagged (object definition directive).
Proof.
  intros ctx.
  destruct (object_cases definition directive ctx) as [[-> _]|[-> _]];
    [constructor|].
  apply tagged_app; [apply tagged_createLambdaFunctionResources|].
  cbn [operations fmap list_fmap concat].
  do 5 (apply tagged_app; [apply tagged_attachment|]). constructor.
Qed.

End Entry.

(** ** Claims about the entry point and the resolver attacher *)

Section EntryClaims.

Context `{Imports}.
Implicit Types (ctx : TransformerContext) (directive : DirectiveNode)
  (definition : ObjectTypeDefinitionNode).

(** C2: when the directives of the annotated type do not include [model]
    (also when it has no directives at all), the entry point throws an
    [InvalidDirectiveError], has made no [setResource] and no
    [mapResourceToStack] call, and leaves the context as it found it. *)
Theorem object_validation_gate definition directive ctx :
  (∀ ds d, directives definition = Some ds → d ∈ ds →
           value (directive_name d) ≠ "model") →
  ∃ message,
    result (object definition directive ctx) = inl (InvalidDirectiveError message)
    ∧ calls (object definition directive ctx) = []
    ∧ context (object definition directive ctx) = ctx
    ∧ size (Resources (context (object definition directive ctx)))
      = size (Resources ctx).
Proof.
  intros Hno.
  destruct (object_rejects definition directive ctx Hno) as [message ->].
  by exists message.
Qed.

(** C9: the resolver attacher never reads the registry: its calls and its
    result are the same in every context.  For a non-empty field name (the
    source reads [fieldName[0]]) it makes exactly one [setResource] call,
    under the type name followed by the field name with its first
    character in upper case and [SidecarResolver], whether or not an entry
    is already stored under that key; such an entry is overwritten. *)
Theorem createSidecarResolver_unconditional
    functionId dataSourceName typeName fieldName :
  let attach :=
    createSidecarResolver functionId dataSourceName typeName fieldName in
  (∀ ctx ctx', calls (attach ctx) = calls (attach ctx')
               ∧ result (attach ctx) = result (attach ctx'))
  ∧ (∀ ctx,
       fieldName ≠ EmptyString →
       ∃ c rest,
         fieldName = String c rest ∧
         let sidecarResolverId :=
           typeName +:+ String (JS.toUpperCase c) rest +:+ "SidecarResolver" in
         let resolver :=
           resolverResource functionId dataSourceName typeName fieldName in
         result (attach ctx) = inr tt
         ∧ calls (attach ctx) =
             [SetResource sidecarResolverId resolver;
              MapResourceToStack SIDECAR_DIRECTIVE_STACK sidecarResolverId]
         ∧ Resources (context (attach ctx)) =
             <[sidecarResolverId := resolver]> (Resources ctx)
         ∧ Resources (context (attach ctx)) !! sidecarResolverId = Some resolver).
Proof.
  intros attach. subst attach. split.
  - intros ctx ctx'. unfold createSidecarResolver.
    by destruct (resolverId typeName fieldName).
  - intros ctx. destruct fieldName as [|c rest]; [done|]. intros _.
    exists c, rest. split; [done|]. cbv zeta.
    erewrite createSidecarResolver_run by reflexivity.
    cbn [result calls context Resources]. by rewrite lookup_insert_eq.
Qed.

(** C7: every [setResource] call of the core is directly followed by the
    [mapResourceToStack] call that maps the same key to
    [FunctionDirectiveStack]: this holds for the graph builder, for the
    resolver attacher and for a whole pass, at the end of which every
    inserted key is mapped to that stack; no other stack name is used. *)
Theorem every_resource_tagged :
  (∀ directive, emits tagged (createLambdaFunctionResources directive))
  ∧ (∀ functionId dataSourceName typeName fieldName,
       emits tagged
         (createSidecarResolver functionId dataSourceName typeName fieldName))
  ∧ (∀ definition directive ctx,
       let o := object definition directive ctx in
       tagged (calls o)
       ∧ (∀ key resource,
            SetResource key resource ∈ calls o →
            stackMapping (context o) !! key = Some SIDECAR_DIRECTIVE_STACK)
       ∧ (∀ stackName key,
            MapResourceToStack stackName key ∈ calls o →
            stackName = SIDECAR_DIRECTIVE_STACK)).
Proof.
  split; [apply tagged_createLambdaFunctionResources|].
  split; [apply tagged_createSidecarResolver|].
  intros definition directive ctx o.
  pose proof (tagged_object definition directive ctx) as Htag. fold o in Htag.
  split; [done|]. split.
  - intros key resource Hin. unfold o at 1. rewrite faithful_object. fold o.
    apply replay_stack; [intros s k; by apply tagged_stack|].
    destruct (tagged_set_mapped _ _ _ Htag Hin) as (cs1 & cs2 & -> & _).
    exists SIDECAR_DIRECTIVE_STACK.
    apply elem_of_app. right. apply elem_of_app. left. unfold creation.
    apply elem_of_cons. right. by apply list_elem_of_singleton.
  - intros stackName key. by apply tagged_stack.
Qed.

(** C4: for a type named [T] that carries the [model] directive (and a
    non-empty plural of [listT], which the resolver attacher indexes), the
    entry point runs the resolver attacher five times after the graph
    builder: for the Mutation fields [createT], [updateT], [deleteT], then
    for the Query fields [getT] and the plural of [listT]; each of the five
    resolvers is built from the function-configuration key and the
    data-source key the graph builder returned. *)
Theorem object_attaches_five definition directive ctx :
  hasModel definition →
  plurality ("list" +:+ value (name definition)) true ≠ EmptyString →
  let T := value (name definition) in
  let built := createLambdaFunctionResources directive ctx in
  ∃ functionId dataSourceName listId,
    result built = inr {| sidecarLambdaFunctionId := functionId;
                          sidecarLambdaDataSourceName := dataSourceName |}
    ∧ resolverId "Query" (plurality ("list" +:+ T) true) = Some listId
    ∧ result (object definition directive ctx) = inr tt
    ∧ calls (object definition directive ctx) =
        calls built
        ++ creation ("MutationCreate" +:+ T +:+ "SidecarResolver")
             (resolverResource functionId dataSourceName
                "Mutation" ("create" +:+ T))
        ++ creation ("MutationUpdate" +:+ T +:+ "SidecarResolver")
             (resolverResource functionId dataSourceName
                "Mutation" ("update" +:+ T))
        ++ creation ("MutationDelete" +:+ T +:+ "SidecarResolver")
             (resolverResource functionId dataSourceName
                "Mutation" ("delete" +:+ T))
        ++ creation ("QueryGet" +:+ T +:+ "SidecarResolver")
             (resolverResource functionId dataSourceName "Query" ("get" +:+ T))
        ++ creation listId
             (resolverResource functionId dataSourceName
                "Query" (plurality ("list" +:+ T) true)).
Proof.
  intros Hmodel Hplural T built.
  destruct (resolverId_nonempty "Query" _ Hplural) as [listId Hid].
  exists (functionConfigKey directive), (dataSourceKey directive), listId.
  destruct (object_run definition directive ctx Hmodel) as (Hcalls & _ & Hres).
  split; [by unfold built; rewrite createLambdaFunctionResources_run|].
  split; [done|]. split; [by apply Hres; exists listId|].
  rewrite Hcalls. fold built. f_equal.
  cbn [operations fmap list_fmap concat]. unfold attachment at 5.
  cbn [fst snd]. rewrite Hid, app_nil_r. reflexivity.
Qed.

End EntryClaims.

(** ** Claims about the resource graph builder *)

Section BuilderClaims.

Context `{Imports}.
Implicit Types (ctx : TransformerContext) (directive : DirectiveNode)
  (definition : ObjectTypeDefinitionNode).

Lemma built_present directive ctx key :
  key ∈ [roleKey directive; dataSourceKey directive; functionConfigKey directive] →
  is_Some (Resources (context (createLambdaFunctionResources directive ctx)) !! key).
Proof.
  rewrite createLambdaFunctionResources_run. cbn [context].
  rewrite !elem_of_cons, elem_of_nil. intros [->|[->|[->|[]]]].
  - destruct (ensure_established (roleKey directive)
                (roleResource (targetName directive) (targetRegion directive)) ctx)
      as [r Hr].
    exists r. by do 2 apply ensure_keeps.
  - match goal with
    | |- context [ensure (dataSourceKey directive) ?res ?c] =>
        destruct (ensure_established (dataSourceKey directive) res c) as [r Hr]
    end.
    exists r. by apply ensure_keeps.
  - apply ensure_established.
Qed.

Lemma built_keeps directive ctx key resource :
  Resources ctx !! key = Some resource →
  Resources (context (createLambdaFunctionResources directive ctx)) !! key
    = Some resource.
Proof.
  intros Hk. rewrite createLambdaFunctionResources_run. cbn [context].
  by do 3 apply ensure_keeps.
Qed.

Lemma built_again directive ctx :
  (∀ key,
     key ∈ [roleKey directive; dataSourceKey directive; functionConfigKey directive] →
     is_Some (Resources ctx !! key)) →
  createLambdaFunctionResources directive ctx =
    {| result := inr (builtKeys directive); context := ctx; calls := [] |}.
Proof.
  intros Hpresent. rewrite createLambdaFunctionResources_run.
  rewrite (ensure_present (roleKey directive)) by (apply Hpresent; set_solver).
  cbn [context calls].
  rewrite (ensure_present (dataSourceKey directive))
    by (apply Hpresent; set_solver).
  cbn [context calls].
  rewrite (ensure_present (functionConfigKey directive))
    by (apply Hpresent; set_solver).
  reflexivity.
Qed.

Lemma built_fresh directive ctx :
  NoDup [roleKey directive; dataSourceKey directive; functionConfigKey directive] →
  (∀ key,
     key ∈ [roleKey directive; dataSourceKey directive; functionConfigKey directive] →
     Resources ctx !! key = None) →
  let name := targetName directive in
  let region := targetRegion directive in
  calls (createLambdaFunctionResources directive ctx) = sharedCreations directive
  ∧ Resources (context (createLambdaFunctionResources directive ctx)) =
      <[functionConfigKey directive := functionConfigurationResource name region]>
        (<[dataSourceKey directive := dataSourceResource name region]>
           (<[roleKey directive := roleResource name region]> (Resources ctx))).
Proof.
  intros Hdup Hfresh name region.
  apply NoDup_cons in Hdup as [Hrole Hdup].
  apply NoDup_cons in Hdup as [Hds _].
  rewrite createLambdaFunctionResources_run.
  rewrite (ensure_absent (roleKey directive)) by (apply Hfresh; set_solver).
  cbn [context calls].
  rewrite (ensure_absent (dataSourceKey directive)).
  2:{ cbn [Resources]. rewrite lookup_insert_ne by set_solver.
      apply Hfresh; set_solver. }
  cbn [context calls].
  rewrite (ensure_absent (functionConfigKey directive)).
  2:{ cbn [Resources]. rewrite !lookup_insert_ne by set_solver.
      apply Hfresh; set_solver. }
  done.
Qed.

Lemma built_shared directive ctx :
  NoDup [roleKey directive; dataSourceKey directive; functionConfigKey directive] →
  sharedOrFree directive (Resources ctx) →
  let name := targetName directive in
  let region := targetRegion directive in
  let m := Resources (context (createLambdaFunctionResources directive ctx)) in
  m !! roleKey directive = Some (roleResource name region)
  ∧ m !! dataSourceKey directive = Some (dataSourceResource name region)
  ∧ m !! functionConfigKey directive
    = Some (functionConfigurationResource name region).
Proof.
  intros Hdup (Hrole & Hds & Hfn) name region m. subst m.
  apply NoDup_cons in Hdup as [Hne1 Hdup].
  apply NoDup_cons in Hdup as [Hne2 _].
  rewrite !elem_of_cons in Hne1. rewrite !elem_of_cons in Hne2.
  assert (dataSourceKey directive ≠ roleKey directive) as Hdr by naive_solver.
  assert (functionConfigKey directive ≠ roleKey directive) as Hfr by naive_solver.
  assert (functionConfigKey directive ≠ dataSourceKey directive) as Hfd
    by naive_solver.
  assert (roleKey directive ≠ dataSourceKey directive) as Hrd by naive_solver.
  assert (roleKey directive ≠ functionConfigKey directive) as Hrf by naive_solver.
  rewrite createLambdaFunctionResources_run. cbn [context].
  split; [|split].
  - rewrite (ensure_other (functionConfigKey directive)) by done.
    rewrite (ensure_other (dataSourceKey directive)) by done.
    rewrite ensure_lookup. by destruct Hrole as [->| ->].
  - rewrite (ensure_other (functionConfigKey directive)) by done.
    rewrite ensure_lookup.
    rewrite (ensure_other (roleKey directive)) by done.
    by destruct Hds as [->| ->].
  - rewrite ensure_lookup.
    rewrite (ensure_other (dataSourceKey directive)) by done.
    rewrite (ensure_other (roleKey directive)) by done.
    by destruct Hfn as [->| ->].
Qed.

(** C1: a second call of the graph builder for the same directive
    arguments, made after a first one, makes no [setResource] and no
    [mapResourceToStack] call, leaves the context as the first call left
    it and returns the same pair of keys.  The registry then holds an
    entry under the role key, the data-source key and the
    function-configuration key; entries that were there before the first
    call are kept, whatever they are, and the two calls together create
    each of the three descriptors at most once.  When the three keys are
    pairwise distinct and each of them was free or already held the
    descriptor of this target, the registry holds exactly the role, the
    data source and the function configuration of the target under them;
    when all three were free, the two calls make exactly the three
    creations. *)
Theorem createLambdaFunctionResources_idempotent directive ctx :
  let keys :=
    [roleKey directive; dataSourceKey directive; functionConfigKey directive] in
  let first := createLambdaFunctionResources directive ctx in
  let second := createLambdaFunctionResources directive (context first) in
  calls second = []
  ∧ context second = context first
  ∧ result second = result first
  ∧ result first = inr {| sidecarLambdaFunctionId := functionConfigKey directive;
                          sidecarLambdaDataSourceName := dataSourceKey directive |}
  ∧ (∀ key, key ∈ keys → is_Some (Resources (context second) !! key))
  ∧ (∀ key resource, Resources ctx !! key = Some resource →
                     Resources (context second) !! key = Some resource)
  ∧ calls first ++ calls second `sublist_of` sharedCreations directive
  ∧ (NoDup keys → (∀ key, key ∈ keys → Resources ctx !! key = None) →
     calls first ++ calls second = sharedCreations directive
     ∧ Resources (context second) =
         <[functionConfigKey directive :=
             functionConfigurationResource (targetName directive)
               (targetRegion directive)]>
           (<[dataSourceKey directive :=
                dataSourceResource (targetName directive) (targetRegion directive)]>
              (<[roleKey directive :=
                   roleResource (targetName directive) (targetRegion directive)]>
                 (Resources ctx))))
  ∧ (NoDup keys → sharedOrFree directive (Resources ctx) →
     Resources (context second) !! roleKey directive
       = Some (roleResource (targetName directive) (targetRegion directive))
     ∧ Resources (context second) !! dataSourceKey directive
       = Some (dataSourceResource (targetName directive) (targetRegion directive))
     ∧ Resources (context second) !! functionConfigKey directive
       = Some (functionConfigurationResource (targetName directive)
                 (targetRegion directive))).
Proof.
  intros keys first second.
  assert (second = {| result := inr (builtKeys directive);
                      context := context first; calls := [] |}) as ->
    by (apply built_again; intros key; apply built_present).
  cbn [result context calls]. rewrite app_nil_r.
  split; [done|]. split; [done|].
  split; [by unfold first; rewrite createLambdaFunctionResources_run|].
  split; [by unfold first; rewrite createLambdaFunctionResources_run|].
  split; [intros key; apply built_present|].
  split; [intros key resource; apply built_keeps|].
  split; [|split].
  - unfold first. rewrite createLambdaFunctionResources_run. cbn [calls].
    repeat apply sublist_app; apply ensure_calls.
  - intros Hdup Hfresh. by apply built_fresh.
  - intros Hdup Hshared. by apply built_shared.
Qed.

End BuilderClaims.

(** ** The dependency graph *)

Section Graph.

Context `{Imports}.
Implicit Types (ctx : TransformerContext) (directive : DirectiveNode)
  (definition : ObjectTypeDefinitionNode) (m : gmap string Resource).

Lemma purposes_app cs1 cs2 : purposes (cs1 ++ cs2) = purposes cs1 ++ purposes cs2.
Proof. unfold purposes, written. by rewrite omap_app, fmap_app. Qed.

Lemma purposes_ensure key resource ctx :
  purposes (calls (ensure key resource ctx)) `sublist_of` [purpose resource].
Proof.
  destruct (Resources ctx !! key) eqn:Hr.
  - rewrite ensure_present by (by rewrite Hr). apply sublist_nil_l.
  - by rewrite ensure_absent.
Qed.

Lemma purposes_attachment directive operation :
  purposes (attachment directive operation) `sublist_of` [Resolver].
Proof.
  unfold attachment. destruct (resolverId _ _); [done | apply sublist_nil_l].
Qed.

Lemma attachment_set directive operation key resource :
  SetResource key resource ∈ attachment directive operation →
  resolverId operation.1 operation.2 = Some key
  ∧ resource = resolverResource (functionConfigKey directive)
                 (dataSourceKey directive) operation.1 operation.2.
Proof.
  unfold attachment. destruct (resolverId _ _) as [sidecarResolverId|];
    [|by intros ?%elem_of_nil].
  unfold creation. rewrite !elem_of_cons, elem_of_nil.
  intros [[= -> ->]|[?|[]]]; done.
Qed.

Lemma attached_set directive ops key resource :
  SetResource key resource ∈ concat (attachment directive <$> ops) →
  ∃ typeName fieldName,
    resolverId typeName fieldName = Some key
    ∧ resource = resolverResource (functionConfigKey directive)
                   (dataSourceKey directive) typeName fieldName.
Proof.
  induction ops as [|op ops IH]; [by intros ?%elem_of_nil|].
  cbn [fmap list_fmap concat]. intros [Hin|Hin]%elem_of_app; [|by apply IH].
  exists op.1, op.2. by apply attachment_set.
Qed.



Lemma replay_keeps_some cs ctx key :
  is_Some (Resources ctx !! key) → is_Some (Resources (replay cs ctx) !! key).
Proof.
  revert ctx. induction cs as [|c cs IH]; intros ctx Hk; [done|].
  apply IH. destruct c as [k r|s k]; [|done]. cbn [apply_call Resources].
  destruct (decide (k = key)) as [->|Hne].
  - by rewrite lookup_insert_eq.
  - by rewrite lookup_insert_ne.
Qed.










End Graph.

Section GraphClaims.

Context `{Imports}.
Implicit Types (ctx : TransformerContext) (directive : DirectiveNode)
  (definition : ObjectTypeDefinitionNode).



End GraphClaims.

(** ** The naming convention *)

Section Naming.

Implicit Types (name s t : string) (region : option string).

Lemma length_append s t :
  String.length (s +:+ t) = String.length s + String.length t.
Proof. induction s; simpl; congruence. Qed.

Lemma append_nonempty s t : t ≠ EmptyString → s +:+ t ≠ EmptyString.
Proof. by destruct s, t. Qed.

Lemma last_char_append s t :
  t ≠ EmptyString → last_char (s +:+ t) = last_char t.
Proof.
  intros Ht. induction s as [|c s IH]; [done|].
  rewrite <-IH. simpl append. cbn [last_char].
  destruct (s +:+ t) eqn:E; [|done].
  destruct s; simpl in E; congruence.
Qed.

Lemma resolverId_last typeName fieldName sidecarResolverId :
  resolverId typeName fieldName = Some sidecarResolverId →
  last_char sidecarResolverId = Some "r"%char.
Proof.
  destruct fieldName as [|c rest]; [done|]. unfold resolverId. intros [= <-].
  rewrite last_char_append by done.
  change (String ?c (?r +:+ ?t)) with (String c r +:+ t).
  by rewrite last_char_append.
Qed.

Lemma model_keys_distinct name region :
  NoDup [NamingModel.FunctionIAMRoleID name region;
         NamingModel.FunctionDataSourceID name region;
         NamingModel.FunctionAppSyncFunctionConfigurationID name region].
Proof.
  assert (∀ s t, String.length s ≠ String.length t → s ≠ t) as Hlen
    by congruence.
  unfold NamingModel.FunctionIAMRoleID,
    NamingModel.FunctionAppSyncFunctionConfigurationID.
  generalize (NamingModel.FunctionDataSourceID name region). intros key.
  repeat constructor; rewrite ?elem_of_cons, ?elem_of_nil;
    intros Heq; repeat destruct Heq as [Heq|Heq]; try done;
    revert Heq; apply Hlen; rewrite !length_append; simpl; lia.
Qed.

Lemma model_keys_end name region key :
  key ∈ [NamingModel.FunctionIAMRoleID name region;
         NamingModel.FunctionDataSourceID name region;
         NamingModel.FunctionAppSyncFunctionConfigurationID name region] →
  last_char key = Some "e"%char.
Proof.
  rewrite !elem_of_cons, elem_of_nil. intros [->|[->|[->|[]]]];
    unfold NamingModel.FunctionIAMRoleID,
      NamingModel.FunctionAppSyncFunctionConfigurationID,
      NamingModel.FunctionDataSourceID;
    by rewrite !last_char_append by (repeat apply append_nonempty; done).
Qed.

Lemma model_keys_free name region key typeName fieldName :
  key ∈ [NamingModel.FunctionIAMRoleID name region;
         NamingModel.FunctionDataSourceID name region;
         NamingModel.FunctionAppSyncFunctionConfigurationID name region] →
  resolverId typeName fieldName ≠ Some key.
Proof.
  intros Hkey%model_keys_end Hid%resolverId_last. congruence.
Qed.

End Naming.

(** C8: the keys depend on the directive arguments only: two runs of the
    graph builder with the same name and region use the same three keys
    and return the same pair, whatever the contexts are.  With the naming convention of
    [NamingModel], the role, data-source and function-configuration keys of
    [foo] in [us-east-1] differ from those of [foo] without a region, and
    for every name and region the keys of the three purposes are pairwise
    distinct. *)
Theorem resource_keys_deterministic_distinct :
  (∀ (imports : Imports) directive1 directive2 ctx1 ctx2,
     targetName directive1 = targetName directive2 →
     targetRegion directive1 = targetRegion directive2 →
     roleKey directive1 = roleKey directive2
     ∧ dataSourceKey directive1 = dataSourceKey directive2
     ∧ functionConfigKey directive1 = functionConfigKey directive2
     ∧ result (createLambdaFunctionResources directive1 ctx1)
       = result (createLambdaFunctionResources directive2 ctx2))
  ∧ (NamingModel.FunctionIAMRoleID "foo" (Some "us-east-1")
       ≠ NamingModel.FunctionIAMRoleID "foo" None
     ∧ NamingModel.FunctionDataSourceID "foo" (Some "us-east-1")
         ≠ NamingModel.FunctionDataSourceID "foo" None
     ∧ NamingModel.FunctionAppSyncFunctionConfigurationID "foo" (Some "us-east-1")
         ≠ NamingModel.FunctionAppSyncFunctionConfigurationID "foo" None)
  ∧ (∀ name region,
       NamingModel.FunctionIAMRoleID name region
         ≠ NamingModel.FunctionDataSourceID name region
       ∧ NamingModel.FunctionIAMRoleID name region
           ≠ NamingModel.FunctionAppSyncFunctionConfigurationID name region
       ∧ NamingModel.FunctionDataSourceID name region
           ≠ NamingModel.FunctionAppSyncFunctionConfigurationID name region).
Proof.
  split; [|split].
  - intros imports directive1 directive2 ctx1 ctx2 Hname Hregion.
    rewrite !createLambdaFunctionResources_run. cbn [result].
    unfold builtKeys, roleKey, functionConfigKey, dataSourceKey.
    by rewrite Hname, Hregion.
  - by vm_compute.
  - intros name region.
    pose proof (model_keys_distinct name region) as Hdup.
    apply NoDup_cons in Hdup as [Hrole Hdup].
    apply NoDup_cons in Hdup as [Hds _].
    rewrite !elem_of_cons in Hrole. rewrite !elem_of_cons in Hds.
    repeat split; intros Heq; [apply Hrole | apply Hrole | apply Hds]; auto.
Qed.

(** ** The claims at concrete inputs *)

Lemma createLambdaFunctionResources_idempotent_witness :
  let directive := Fixture.sidecar "myFn" in
  let first :=
    @createLambdaFunctionResources Fixture.imports directive emptyContext in
  let second :=
    @createLambdaFunctionResources Fixture.imports directive (context first) in
  calls second = []
  ∧ calls first ++ calls second = @sharedCreations Fixture.imports directive
  ∧ size (Resources (context second)) = 3
  ∧ purpose <$> Resources (context second) !! @dataSourceKey Fixture.imports directive
    = Some DataSource.
Proof.
  intros directive first second.
  destruct (@createLambdaFunctionResources_idempotent Fixture.imports
              directive emptyContext)
    as (Hnone & _ & _ & _ & _ & _ & _ & Hfresh & Hshared).
  destruct Hfresh as [Hcalls Hregistry].
  - exact (model_keys_distinct "myFn" None).
  - intros key _. apply lookup_empty.
  - destruct Hshared as (_ & Hds & _).
    + exact (model_keys_distinct "myFn" None).
    + repeat split; left; apply lookup_empty.
    + split; [exact Hnone|]. split; [exact Hcalls|]. split.
      * fold first second in Hregistry. rewrite Hregistry. reflexivity.
      * fold first second in Hds. rewrite Hds. reflexivity.
Defined.

(** C1, not on every registry: the existence checks of the graph builder
    look at the key only, and the key of the function configuration of
    one target can be the data-source key of another.  After a pass for
    the target [foo] the data-source key of the target [InvokeFoo] holds
    the function configuration of [foo].  Two calls of the graph builder
    for [InvokeFoo] then create a role and a function configuration but no
    data source: the second call makes no call and returns the keys of the
    first, yet the registry holds no data source under the data-source key
    of [InvokeFoo], and its only data source is that of [foo]. *)
Lemma createLambdaFunctionResources_idempotent_counterexample :
  let ctx :=
    context (@object Fixture.imports Fixture.Widget (Fixture.sidecar "foo")
               emptyContext) in
  let directive := Fixture.sidecar "InvokeFoo" in
  let first := @createLambdaFunctionResources Fixture.imports directive ctx in
  let second :=
    @createLambdaFunctionResources Fixture.imports directive (context first) in
  let registry := Resources (context second) in
  calls second = []
  ∧ result second = result first
  ∧ purposes (calls first ++ calls second) = [Role; FunctionConfig]
  ∧ registry !! @dataSourceKey Fixture.imports directive
    = Some (@functionConfigurationResource Fixture.imports "foo" None)
  ∧ ¬ (∃ role dataSource functionConfig,
         registry !! @roleKey Fixture.imports directive = Some role
         ∧ purpose role = Role
         ∧ registry !! @dataSourceKey Fixture.imports directive = Some dataSource
         ∧ purpose dataSource = DataSource
         ∧ registry !! @functionConfigKey Fixture.imports directive
           = Some functionConfig
         ∧ purpose functionConfig = FunctionConfig)
  ∧ omap (λ kr, match purpose kr.2 with
                | DataSource => Some kr.1
                | _ => None
                end) (map_to_list registry)
    = ["FooLambdaDataSource"].
Proof.
  intros ctx directive first second registry.
  assert (registry !! @dataSourceKey Fixture.imports directive
          = Some (@functionConfigurationResource Fixture.imports "foo" None))
    as Htaken by (vm_compute; reflexivity).
  split; [vm_compute; reflexivity|].
  split; [vm_compute; reflexivity|].
  split; [vm_compute; reflexivity|].
  split; [exact Htaken|].
  split; [|vm_compute; reflexivity].
  intros (role & dataSource & functionConfig & _ & _ & Hds & Hpurpose & _).
  rewrite Htaken in Hds. injection Hds as <-. discriminate Hpurpose.
Qed.

Lemma object_validation_gate_witness :
  ∃ message,
    result (@object Fixture.imports Fixture.Plain (Fixture.sidecar "myFn")
              emptyContext)
    = inl (InvalidDirectiveError message)
    ∧ calls (@object Fixture.imports Fixture.Plain (Fixture.sidecar "myFn")
               emptyContext) = []
    ∧ context (@object Fixture.imports Fixture.Plain (Fixture.sidecar "myFn")
                 emptyContext) = emptyContext
    ∧ size (Resources
              (context (@object Fixture.imports Fixture.Plain
                          (Fixture.sidecar "myFn") emptyContext)))
      = size (Resources emptyContext).
Proof.
  apply (@object_validation_gate Fixture.imports Fixture.Plain
           (Fixture.sidecar "myFn") emptyContext).
  intros ds d [= <-] Hd. apply list_elem_of_singleton in Hd as ->. discriminate.
Defined.


Lemma object_attaches_five_witness :
  result (@object Fixture.imports Fixture.Widget (Fixture.sidecar "myFn-${env}")
            emptyContext) = inr tt
  ∧ length (calls (@object Fixture.imports Fixture.Widget
                     (Fixture.sidecar "myFn-${env}") emptyContext)) = 16.
Proof.
  destruct (@object_attaches_five Fixture.imports Fixture.Widget
              (Fixture.sidecar "myFn-${env}") emptyContext)
    as (functionId & dataSourceName & listId & _ & _ & Hres & Hcalls).
  - exists [Fixture.modelDirective; Fixture.sidecar "myFn-${env}"],
      Fixture.modelDirective.
    split; [reflexivity|]. split; [|reflexivity].
    apply elem_of_cons. by left.
  - discriminate.
  - split; [exact Hres | reflexivity].
Defined.

Lemma resource_keys_deterministic_distinct_witness :
  result (@createLambdaFunctionResources Fixture.imports (Fixture.sidecar "foo")
            emptyContext)
  = result (@createLambdaFunctionResources Fixture.imports (Fixture.sidecar "foo")
              (context (@object Fixture.imports Fixture.Widget
                          (Fixture.sidecar "foo") emptyContext))).
Proof.
  apply (proj1 resource_keys_deterministic_distinct Fixture.imports
           (Fixture.sidecar "foo") (Fixture.sidecar "foo"));
    reflexivity.
Defined.

Lemma createSidecarResolver_unconditional_witness :
  calls (@createSidecarResolver Fixture.imports "InvokeMyFnLambdaDataSource"
           "MyFnLambdaDataSource" "Query" "getWidget" emptyContext)
  = [SetResource "QueryGetWidgetSidecarResolver"
       (@resolverResource Fixture.imports "InvokeMyFnLambdaDataSource"
          "MyFnLambdaDataSource" "Query" "getWidget");
     MapResourceToStack "FunctionDirectiveStack" "QueryGetWidgetSidecarResolver"].
Proof.
  destruct (proj2 (@createSidecarResolver_unconditional Fixture.imports
                     "InvokeMyFnLambdaDataSource" "MyFnLambdaDataSource"
                     "Query" "getWidget") emptyContext)
    as (c & rest & Hfield & _ & Hcalls & _); [discriminate|].
  injection Hfield as <- <-. exact Hcalls.
Defined.

(** * Further properties of the transformer *)

(** ** Outcomes of validation and of a pass *)

Section Outcomes.

Context `{Imports}.
Implicit Types (ctx : TransformerContext) (directive : DirectiveNode)
  (definition : ObjectTypeDefinitionNode).

Lemma not_hasModel definition :
  ¬ hasModel definition ↔
  ∀ ds d, directives definition = Some ds → d ∈ ds →
          value (directive_name d) ≠ "model".
Proof.
  split.
  - intros Hno ds d Hds Hd Hname. apply Hno. by exists ds, d.
  - intros Hno (ds & d & Hds & Hd & Hname). by apply (Hno ds d).
Qed.

(** X1: [validateObject] never touches the context.  It passes exactly
    when some directive of the type is named [model]; it throws with the
    message about missing directives exactly when the type has no
    directive list, and with the message about [@model] exactly when the
    list (possibly empty) holds no [model] directive. *)
Theorem validateObject_outcomes definition ctx :
  let o := validateObject definition ctx in
  context o = ctx ∧ calls o = []
  ∧ (result o = inr tt ↔ hasModel definition)
  ∧ (result o = inl (InvalidDirectiveError "Type does not have any directives.")
     ↔ directives definition = None)
  ∧ (result o
     = inl (InvalidDirectiveError
              "Types annotated with @sidecar must also be annotated with @model.")
     ↔ ∃ ds, directives definition = Some ds
             ∧ ∀ d, d ∈ ds → value (directive_name d) ≠ "model").
Proof.
  intros o. subst o.
  destruct (hasModel_or_not definition) as [Hmodel|Hno].
  - rewrite validateObject_passes by done. cbn [result context calls].
    destruct Hmodel as (ds & d & Hds & Hd & Hname).
    repeat split; try done; try (by exists ds, d).
    + rewrite Hds. done.
    + intros (ds' & Hds' & Hno). rewrite Hds in Hds'. injection Hds' as <-.
      by destruct (Hno d Hd).
  - pose proof (proj2 (not_hasModel definition) Hno) as Hnot.
    unfold validateObject.
    destruct (directives definition) as [ds|] eqn:Hds.
    + destruct (List.find _ ds) as [d|] eqn:Hfind.
      { apply find_some in Hfind as [Hd Hname]. apply list_elem_of_In in Hd.
        apply String.eqb_eq in Hname. by destruct (Hno ds d). }
      cbn [not_ throw result context calls].
      repeat split; try done.
      exists ds. split; [done|]. intros d. by apply Hno.
    + cbn [throw result context calls].
      repeat split; try done. by intros (ds & ? & _).
Qed.

Lemma object_result definition directive ctx :
  hasModel definition →
  result (object definition directive ctx) =
    match resolverId "Query"
            (plurality ("list" +:+ value (name definition)) true) with
    | Some _ => inr tt
    | None => inl (TypeError
                "Cannot read properties of undefined (reading 'toUpperCase')")
    end.
Proof.
  intros Hmodel. unfold object.
  rewrite (bind_ok _ _ _ tt)
    by (rewrite validateObject_passes; [reflexivity | assumption]).
  rewrite validateObject_passes by assumption.
  cbn [result context calls app].
  rewrite (bind_ok _ _ _ (builtKeys directive))
    by (rewrite createLambdaFunctionResources_run; reflexivity).
  cbn [result builtKeys sidecarLambdaFunctionId sidecarLambdaDataSourceName].
  do 3 (rewrite (attach_then directive "Mutation") by (eexists; reflexivity)).
  rewrite (attach_then directive "Query") by (eexists; reflexivity).
  rewrite (attach_run directive "Query"). reflexivity.
Qed.

(** X2: a pass ends in one of three ways.  It returns normally exactly
    when the type carries [model] and the plural of the list field is not
    empty; it throws an [InvalidDirectiveError] exactly when [model] is
    missing; it throws a [TypeError] exactly when [model] is present and
    the plural is empty, and then the shared resources and the resolvers of
    create, update, delete and get have already been written. *)
Theorem object_outcomes definition directive ctx :
  let o := object definition directive ctx in
  let T := value (name definition) in
  let plural := plurality ("list" +:+ T) true in
  let functionId := functionConfigKey directive in
  let dataSourceName := dataSourceKey directive in
  (result o = inr tt ↔ hasModel definition ∧ plural ≠ EmptyString)
  ∧ ((∃ message, result o = inl (InvalidDirectiveError message))
     ↔ ¬ hasModel definition)
  ∧ ((∃ message, result o = inl (TypeError message))
     ↔ hasModel definition ∧ plural = EmptyString)
  ∧ (hasModel definition → plural = EmptyString →
     calls o =
       calls (createLambdaFunctionResources directive ctx)
       ++ creation ("MutationCreate" +:+ T +:+ "SidecarResolver")
            (resolverResource functionId dataSourceName
               "Mutation" ("create" +:+ T))
       ++ creation ("MutationUpdate" +:+ T +:+ "SidecarResolver")
            (resolverResource functionId dataSourceName
               "Mutation" ("update" +:+ T))
       ++ creation ("MutationDelete" +:+ T +:+ "SidecarResolver")
            (resolverResource functionId dataSourceName
               "Mutation" ("delete" +:+ T))
       ++ creation ("QueryGet" +:+ T +:+ "SidecarResolver")
            (resolverResource functionId dataSourceName "Query" ("get" +:+ T))).
Proof.
  intros o T plural functionId dataSourceName. subst o.
  destruct (hasModel_or_not definition) as [Hmodel|Hno].
  - rewrite object_result by done. fold T plural.
    destruct plural as [|c rest] eqn:Hplural; cbn [resolverId].
    + repeat split; try done; try naive_solver.
      intros _ _.
      destruct (object_run definition directive ctx Hmodel) as (-> & _).
      f_equal. cbn [operations fmap list_fmap concat]. fold T plural.
      rewrite Hplural. unfold attachment at 5. cbn [fst snd resolverId].
      rewrite !app_nil_r. reflexivity.
    + repeat split; try done; try naive_solver.
  - destruct (object_rejects definition directive ctx Hno) as [message ->].
    cbn [result]. apply not_hasModel in Hno.
    repeat split; try done; try naive_solver.
Qed.

End Outcomes.

(** ** What a pass changes *)

Section Frame.

Context `{Imports}.
Implicit Types (ctx : TransformerContext) (directive : DirectiveNode)
  (definition : ObjectTypeDefinitionNode).

Lemma context_ext (a b : TransformerContext) :
  Resources a = Resources b → stackMapping a = stackMapping b → a = b.
Proof. destruct a, b. simpl. congruence. Qed.

Lemma ensure_other_stack key resource ctx k :
  k ≠ key →
  stackMapping (context (ensure key resource ctx)) !! k = stackMapping ctx !! k.
Proof.
  intros Hne. destruct (Resources ctx !! key) eqn:Hr.
  - by rewrite ensure_present by (by rewrite Hr).
  - rewrite ensure_absent by done. simpl. by rewrite lookup_insert_ne.
Qed.

Lemma built_other directive ctx key :
  key ∉ [roleKey directive; dataSourceKey directive; functionConfigKey directive] →
  Resources (context (createLambdaFunctionResources directive ctx)) !! key
    = Resources ctx !! key
  ∧ stackMapping (context (createLambdaFunctionResources directive ctx)) !! key
    = stackMapping ctx !! key.
Proof.
  rewrite !elem_of_cons, elem_of_nil. intros Hkey.
  rewrite createLambdaFunctionResources_run. cbn [context].
  rewrite !ensure_other, !ensure_other_stack by (intros ->; apply Hkey; auto).
  done.
Qed.

Lemma attached_other directive ops ctx key :
  (∀ op, op ∈ ops → resolverId op.1 op.2 ≠ Some key) →
  Resources (replay (concat (attachment directive <$> ops)) ctx) !! key
    = Resources ctx !! key
  ∧ stackMapping (replay (concat (attachment directive <$> ops)) ctx) !! key
    = stackMapping ctx !! key.
Proof.
  revert ctx. induction ops as [|op ops IH]; intros ctx Hops; [done|].
  cbn [fmap list_fmap concat]. rewrite replay_app.
  destruct (IH (replay (attachment directive op) ctx)) as [-> ->].
  { intros op' Hop'. apply Hops. by right. }
  unfold attachment. destruct (resolverId op.1 op.2) as [id|] eqn:Hid; [|done].
  cbn [replay creation foldl apply_call Resources stackMapping].
  assert (id ≠ key) as Hne.
  { intros ->. apply (Hops op); [by left | done]. }
  by rewrite !lookup_insert_ne.
Qed.

(** X3: a pass changes the registry and the stack table only under the
    three shared keys of its directive and the resolver identifiers of its
    five operations.  It never removes an entry, and an entry that was in
    the registry before the pass is still there unchanged unless its key is
    one of those resolver identifiers. *)
Theorem object_frame definition directive ctx key :
  let o := object definition directive ctx in
  (key ∉ [roleKey directive; dataSourceKey directive; functionConfigKey directive] →
   (∀ op, op ∈ operations definition → resolverId op.1 op.2 ≠ Some key) →
   Resources (context o) !! key = Resources ctx !! key
   ∧ stackMapping (context o) !! key = stackMapping ctx !! key)
  ∧ (∀ old,
       Resources ctx !! key = Some old →
       (∀ op, op ∈ operations definition → resolverId op.1 op.2 ≠ Some key) →
       Resources (context o) !! key = Some old)
  ∧ (is_Some (Resources ctx !! key) → is_Some (Resources (context o) !! key)).
Proof.
  intros o. subst o.
  destruct (object_cases definition directive ctx) as [[_ ->]|[_ ->]]; [done|].
  split; [|split].
  - intros Hkey Hops.
    destruct (attached_other directive (operations definition)
                (context (createLambdaFunctionResources directive ctx)) key Hops)
      as [-> ->].
    by apply built_other.
  - intros old Hold Hops.
    destruct (attached_other directive (operations definition)
                (context (createLambdaFunctionResources directive ctx)) key Hops)
      as [-> _].
    by apply built_keeps.
  - intros [old Hold]. apply replay_keeps_some. exists old. by apply built_keeps.
Qed.

Lemma pass_keys_present definition directive ctx key :
  hasModel definition →
  key ∈ [roleKey directive; dataSourceKey directive; functionConfigKey directive] →
  is_Some (Resources (context (object definition directive ctx)) !! key).
Proof.
  intros Hmodel Hkey.
  destruct (object_run definition directive ctx Hmodel) as (_ & -> & _).
  by apply replay_keeps_some, built_present.
Qed.

(** X4: when a second annotated type refers to the same target after a
    first one, the graph builder finds an entry under each of the three
    shared keys: it makes no [setResource] and no [mapResourceToStack]
    call (it only reads the registry), leaves the context as it is and
    returns the same keys; the second pass writes resolvers only, each
    depending on the shared function-configuration key and bound to the
    shared data-source key. *)
Theorem second_type_shares definition1 definition2 directive ctx :
  hasModel definition1 → hasModel definition2 →
  let first := object definition1 directive ctx in
  let second := object definition2 directive (context first) in
  createLambdaFunctionResources directive (context first) =
    {| result := inr {| sidecarLambdaFunctionId := functionConfigKey directive;
                        sidecarLambdaDataSourceName := dataSourceKey directive |};
       context := context first; calls := [] |}
  ∧ purposes (calls second)
      `sublist_of` [Resolver; Resolver; Resolver; Resolver; Resolver]
  ∧ (∀ key resource,
       SetResource key resource ∈ calls second →
       dependencies resource = [functionConfigKey directive]
       ∧ ∃ p, properties resource = ResolverProperties p
              ∧ AppSync.rs_DataSourceName p = dataSourceKey directive).
Proof.
  intros Hmodel1 Hmodel2 first second.
  assert (createLambdaFunctionResources directive (context first) =
            {| result := inr (builtKeys directive);
               context := context first; calls := [] |}) as Hbuilt.
  { apply built_again. intros key. by apply pass_keys_present. }
  split; [exact Hbuilt|].
  destruct (object_run definition2 directive (context first) Hmodel2)
    as (Hcalls & _). fold second in Hcalls.
  rewrite Hbuilt in Hcalls. cbn [calls app] in Hcalls. rewrite Hcalls.
  split.
  - cbn [operations fmap list_fmap concat]. rewrite !purposes_app.
    change [Resolver; Resolver; Resolver; Resolver; Resolver]
      with ([Resolver] ++ [Resolver] ++ [Resolver] ++ [Resolver]
            ++ [Resolver] ++ []).
    do 5 (apply sublist_app; [apply purposes_attachment|]). done.
  - intros key resource (ty & f & _ & ->)%attached_set.
    split; [done|]. by eexists.
Qed.

Lemma replay_resources_cases cs key :
  (∃ r, ∀ ctx, Resources (replay cs ctx) !! key = Some r)
  ∨ (∀ ctx, Resources (replay cs ctx) !! key = Resources ctx !! key).
Proof.
  induction cs as [|c cs IH] using rev_ind; [by right|].
  destruct c as [k r|s k].
  - destruct (decide (k = key)) as [->|Hne].
    + left. exists r. intros ctx. rewrite replay_app. apply lookup_insert_eq.
    + destruct IH as [[r' Hr']|Hsame]; [left; exists r' | right]; intros ctx;
        rewrite replay_app; cbn [replay foldl apply_call Resources];
        rewrite lookup_insert_ne by done; [apply Hr' | apply Hsame].
  - destruct IH as [[r' Hr']|Hsame]; [left; exists r' | right]; intros ctx;
      rewrite replay_app; cbn [replay foldl apply_call Resources];
      [apply Hr' | apply Hsame].
Qed.

Lemma replay_stack_cases cs key :
  (∃ s, ∀ ctx, stackMapping (replay cs ctx) !! key = Some s)
  ∨ (∀ ctx, stackMapping (replay cs ctx) !! key = stackMapping ctx !! key).
Proof.
  induction cs as [|c cs IH] using rev_ind; [by right|].
  destruct c as [k r|s k].
  - destruct IH as [[s' Hs']|Hsame]; [left; exists s' | right]; intros ctx;
      rewrite replay_app; cbn [replay foldl apply_call stackMapping];
      [apply Hs' | apply Hsame].
  - destruct (decide (k = key)) as [->|Hne].
    + left. exists s. intros ctx. rewrite replay_app. apply lookup_insert_eq.
    + destruct IH as [[s' Hs']|Hsame]; [left; exists s' | right]; intros ctx;
        rewrite replay_app; cbn [replay foldl apply_call stackMapping];
        rewrite lookup_insert_ne by done; [apply Hs' | apply Hsame].
Qed.

Lemma replay_twice cs ctx : replay cs (replay cs ctx) = replay cs ctx.
Proof.
  apply context_ext; apply map_eq; intros key.
  - destruct (replay_resources_cases cs key) as [[r Hr]|Hsame].
    + by rewrite !Hr.
    + by rewrite Hsame.
  - destruct (replay_stack_cases cs key) as [[s Hs]|Hsame].
    + by rewrite !Hs.
    + by rewrite Hsame.
Qed.

(** X5: processing the same annotated type a second time leaves the
    context exactly as the first pass left it and ends the same way,
    although the resolver attacher is not guarded: for a type that carries
    [model] the second pass makes the calls of its five resolvers again and
    none for the shared resources. *)
Theorem object_twice definition directive ctx :
  let first := object definition directive ctx in
  let second := object definition directive (context first) in
  context second = context first
  ∧ result second = result first
  ∧ (hasModel definition →
     calls second = concat (attachment directive <$> operations definition)).
Proof.
  intros first second.
  destruct (hasModel_or_not definition) as [Hmodel|Hno].
  - assert (createLambdaFunctionResources directive (context first) =
              {| result := inr (builtKeys directive);
                 context := context first; calls := [] |}) as Hbuilt.
    { apply built_again. intros key. by apply pass_keys_present. }
    destruct (object_run definition directive (context first) Hmodel)
      as (Hcalls & Hctx & _). fold second in Hcalls, Hctx.
    rewrite Hbuilt in Hcalls, Hctx. cbn [calls context app] in Hcalls, Hctx.
    split; [|split; [|done]].
    + rewrite Hctx. unfold first.
      destruct (object_run definition directive ctx Hmodel) as (_ & -> & _).
      apply replay_twice.
    + unfold second, first. by rewrite !object_result.
  - assert (context first = ctx) as Hctx.
    { unfold first.
      by destruct (object_rejects definition directive ctx Hno) as [? ->]. }
    unfold second. rewrite Hctx. fold first.
    split; [done|]. split; [done|].
    intros Hmodel. by apply not_hasModel in Hno.
Qed.

End Frame.

(** ** The shared resources *)

Section Shared.

Context `{Imports}.
Implicit Types (ctx : TransformerContext) (directive : DirectiveNode)
  (definition : ObjectTypeDefinitionNode).

Lemma ensure_calls_eq key resource ctx :
  calls (ensure key resource ctx) =
    match Resources ctx !! key with
    | None => creation key resource
    | Some _ => []
    end.
Proof.
  destruct (Resources ctx !! key) eqn:Hr.
  - by rewrite ensure_present by (by rewrite Hr).
  - by rewrite ensure_absent.
Qed.

(** X6: for pairwise distinct keys the graph builder creates exactly the
    shared resources that are missing, in the order role, data source,
    function configuration; afterwards each of the three keys holds what
    was stored under it before or, if nothing was, the new descriptor. *)
Theorem builder_creates_missing directive ctx :
  NoDup [roleKey directive; dataSourceKey directive; functionConfigKey directive] →
  let name := targetName directive in
  let region := targetRegion directive in
  let missing key resource :=
    match Resources ctx !! key with
    | None => creation key resource
    | Some _ => []
    end in
  let built := createLambdaFunctionResources directive ctx in
  calls built =
    missing (roleKey directive) (roleResource name region)
    ++ missing (dataSourceKey directive) (dataSourceResource name region)
    ++ missing (functionConfigKey directive)
         (functionConfigurationResource name region)
  ∧ Resources (context built) !! roleKey directive
    = Some (default (roleResource name region)
              (Resources ctx !! roleKey directive))
  ∧ Resources (context built) !! dataSourceKey directive
    = Some (default (dataSourceResource name region)
              (Resources ctx !! dataSourceKey directive))
  ∧ Resources (context built) !! functionConfigKey directive
    = Some (default (functionConfigurationResource name region)
              (Resources ctx !! functionConfigKey directive)).
Proof.
  intros Hdup name region missing built. subst missing built.
  apply NoDup_cons in Hdup as [Hne1 Hdup].
  apply NoDup_cons in Hdup as [Hne2 _].
  rewrite !elem_of_cons in Hne1. rewrite !elem_of_cons in Hne2.
  assert (dataSourceKey directive ≠ roleKey directive) as Hdr by naive_solver.
  assert (functionConfigKey directive ≠ roleKey directive) as Hfr by naive_solver.
  assert (functionConfigKey directive ≠ dataSourceKey directive) as Hfd
    by naive_solver.
  assert (roleKey directive ≠ dataSourceKey directive) as Hrd by naive_solver.
  assert (roleKey directive ≠ functionConfigKey directive) as Hrf by naive_solver.
  assert (dataSourceKey directive ≠ functionConfigKey directive) as Hdf
    by naive_solver.
  rewrite createLambdaFunctionResources_run. cbn [calls context].
  rewrite !ensure_calls_eq.
  split; [|split; [|split]].
  - rewrite (ensure_other (dataSourceKey directive) _ _
               (functionConfigKey directive)) by done.
    by rewrite !(ensure_other (roleKey directive)) by done.
  - rewrite (ensure_other (functionConfigKey directive)) by done.
    rewrite (ensure_other (dataSourceKey directive)) by done.
    apply ensure_lookup.
  - rewrite (ensure_other (functionConfigKey directive)) by done.
    rewrite ensure_lookup.
    by rewrite (ensure_other (roleKey directive)) by done.
  - rewrite ensure_lookup.
    rewrite (ensure_other (dataSourceKey directive)) by done.
    by rewrite (ensure_other (roleKey directive)) by done.
Qed.

(** X7: after a pass for a type that carries [model], started on a
    registry in which each shared key of the directive is free or holds
    the directive's own descriptor, the three keys (distinct, and no
    resolver identifiers) hold the role, the data source and the function
    configuration of the directive: the registry is ready for the next
    type that refers to the same target. *)
Theorem shared_established definition directive ctx :
  hasModel definition →
  NoDup [roleKey directive; dataSourceKey directive; functionConfigKey directive] →
  (∀ key op,
     key ∈ [roleKey directive; dataSourceKey directive; functionConfigKey directive] →
     op ∈ operations definition → resolverId op.1 op.2 ≠ Some key) →
  sharedOrFree directive (Resources ctx) →
  let name := targetName directive in
  let region := targetRegion directive in
  let m := Resources (context (object definition directive ctx)) in
  m !! roleKey directive = Some (roleResource name region)
  ∧ m !! dataSourceKey directive = Some (dataSourceResource name region)
  ∧ m !! functionConfigKey directive
    = Some (functionConfigurationResource name region)
  ∧ sharedOrFree directive m.
Proof.
  intros Hmodel Hdup Hfree (Hrole & Hds & Hfn) name region m.
  assert (m !! roleKey directive = Some (roleResource name region)
          ∧ m !! dataSourceKey directive = Some (dataSourceResource name region)
          ∧ m !! functionConfigKey directive
            = Some (functionConfigurationResource name region))
    as (Hr & Hd & Hf); [|by repeat split; try right].
  destruct (builder_creates_missing directive ctx Hdup) as (_ & Hr & Hd & Hf).
  fold name region in Hr, Hd, Hf. unfold m.
  destruct (object_run definition directive ctx Hmodel) as (_ & -> & _).
  repeat split.
  - destruct (attached_other directive (operations definition)
                (context (createLambdaFunctionResources directive ctx))
                (roleKey directive)) as [-> _].
    { intros op. apply Hfree. rewrite !elem_of_cons. auto. }
    rewrite Hr. by destruct Hrole as [->| ->].
  - destruct (attached_other directive (operations definition)
                (context (createLambdaFunctionResources directive ctx))
                (dataSourceKey directive)) as [-> _].
    { intros op. apply Hfree. rewrite !elem_of_cons. auto. }
    rewrite Hd. by destruct Hds as [->| ->].
  - destruct (attached_other directive (operations definition)
                (context (createLambdaFunctionResources directive ctx))
                (functionConfigKey directive)) as [-> _].
    { intros op. apply Hfree. rewrite !elem_of_cons. auto. }
    rewrite Hf. by destruct Hfn as [->| ->].
Qed.

End Shared.

(** ** Bounds of a pass *)

Section Bounds.

Context `{Imports}.
Implicit Types (ctx : TransformerContext) (directive : DirectiveNode)
  (definition : ObjectTypeDefinitionNode).

Lemma object_purposes definition directive ctx :
  purposes (calls (object definition directive ctx)) `sublist_of` provisioningOrder.
Proof.
  destruct (object_cases definition directive ctx) as [[-> _]|[-> _]];
    [apply sublist_nil_l|].
  rewrite purposes_app.
  change provisioningOrder
    with ([Role; DataSource; FunctionConfig]
          ++ [Resolver] ++ [Resolver] ++ [Resolver] ++ [Resolver]
          ++ [Resolver] ++ []).
  apply sublist_app.
  - rewrite createLambdaFunctionResources_run. cbn [calls].
    rewrite !purposes_app.
    apply (sublist_app _ [Role] _ [DataSource; FunctionConfig]);
      [apply purposes_ensure|].
    apply (sublist_app _ [DataSource] _ [FunctionConfig]);
      apply purposes_ensure.
  - cbn [operations fmap list_fmap concat]. rewrite !purposes_app.
    do 5 (apply sublist_app; [apply purposes_attachment|]). done.
Qed.

Lemma tagged_length cs : tagged cs → length cs = 2 * length (written cs).
Proof.
  induction 1 as [|k r cs _ IH]; [done|].
  change (written (SetResource k r
                     :: MapResourceToStack SIDECAR_DIRECTIVE_STACK k :: cs))
    with ((k, r) :: written cs).
  cbn [length]. lia.
Qed.

Lemma size_replay cs ctx :
  (size (Resources ctx) ≤ size (Resources (replay cs ctx)))%nat
  ∧ (size (Resources (replay cs ctx))
     ≤ size (Resources ctx) + length (written cs))%nat.
Proof.
  revert ctx. induction cs as [|c cs IH]; intros ctx; [cbn; lia|].
  change (replay (c :: cs) ctx) with (replay cs (apply_call ctx c)).
  destruct (IH (apply_call ctx c)) as [Hlo Hhi].
  destruct c as [k r|s k]; cbn [apply_call Resources] in Hlo, Hhi.
  - change (written (SetResource k r :: cs)) with ((k, r) :: written cs).
    cbn [length apply_call]. rewrite map_size_insert in Hlo, Hhi.
    destruct (Resources ctx !! k); unfold id in *; lia.
  - change (written (MapResourceToStack s k :: cs)) with (written cs).
    cbn [apply_call]. lia.
Qed.

(** X8: one pass writes at most eight descriptors and makes at most
    sixteen mutating calls ([setResource] and [mapResourceToStack] taken
    together; the reads by [getResource] are not counted), never shrinks
    the registry and adds at most eight entries to it. *)
Theorem object_bounds definition directive ctx :
  let o := object definition directive ctx in
  (length (written (calls o)) ≤ 8)%nat
  ∧ (length (calls o) ≤ 16)%nat
  ∧ (size (Resources ctx) ≤ size (Resources (context o)))%nat
  ∧ (size (Resources (context o)) ≤ size (Resources ctx) + 8)%nat.
Proof.
  intros o. subst o.
  assert (length (written (calls (object definition directive ctx))) ≤ 8)%nat
    as Hwritten.
  { pose proof (sublist_length _ _ (object_purposes definition directive ctx))
      as Hlen.
    unfold purposes in Hlen. by rewrite length_fmap in Hlen. }
  split; [done|]. split.
  - rewrite (tagged_length _ (tagged_object definition directive ctx)). lia.
  - rewrite faithful_object.
    pose proof (size_replay (calls (object definition directive ctx)) ctx).
    lia.
Qed.

End Bounds.

(** ** Resolver identifiers *)

Section Identifiers.

Context `{Imports}.
Implicit Types (ctx : TransformerContext) (s t u : string).

Lemma append_cancel_l s t u : s +:+ t = s +:+ u → t = u.
Proof. induction s as [|c s IH]; simpl; [done|]. intros [= ?]. auto. Qed.

Lemma append_cancel_r s t u : s +:+ u = t +:+ u → s = t.
Proof.
  revert t. induction s as [|c s IH]; intros [|d t] Heq; simpl in Heq.
  - done.
  - apply (f_equal String.length) in Heq. simpl in Heq.
    rewrite length_append in Heq. lia.
  - apply (f_equal String.length) in Heq. simpl in Heq.
    rewrite length_append in Heq. lia.
  - injection Heq as -> Heq. f_equal. by apply IH.
Qed.

(** X9: the resolver identifiers of the create, update, delete and get
    fields are pairwise different, and for one operation they differ for
    different type names: resolvers of these four operations never replace
    each other, within one type or across types. *)
Theorem fixed_resolver_ids_distinct (T1 T2 : string) (op1 op2 : string * string) :
  let fixed := [("Mutation", "create"); ("Mutation", "update");
                ("Mutation", "delete"); ("Query", "get")] in
  op1 ∈ fixed → op2 ∈ fixed →
  resolverId op1.1 (op1.2 +:+ T1) = resolverId op2.1 (op2.2 +:+ T2) →
  op1 = op2 ∧ T1 = T2.
Proof.
  intros fixed. unfold fixed. rewrite !elem_of_cons, !elem_of_nil.
  intros [->|[->|[->|[->|[]]]]] [->|[->|[->|[->|[]]]]] Heq;
    cbn in Heq; try discriminate Heq;
    (split; [done|]); injection Heq as Heq;
    by apply append_cancel_r in Heq.
Qed.

Lemma toUpperCase_idempotent c :
  JS.toUpperCase (JS.toUpperCase c) = JS.toUpperCase c.
Proof. by destruct c as [[] [] [] [] [] [] [] []]. Qed.

(** X10: the resolver identifier ignores the case of the first letter of
    the field name.  So two field names of one type that differ only
    there share an identifier, and attaching a resolver for the second
    after one for the first leaves a single entry, the resolver of the
    second. *)
Theorem resolverId_first_letter
    functionId dataSourceName typeName (c : ascii) (rest : string) ctx :
  let lower := String c rest in
  let upper := String (JS.toUpperCase c) rest in
  let first := createSidecarResolver functionId dataSourceName typeName lower ctx in
  let second :=
    createSidecarResolver functionId dataSourceName typeName upper (context first) in
  resolverId typeName lower = resolverId typeName upper
  ∧ ∃ sidecarResolverId,
      resolverId typeName upper = Some sidecarResolverId
      ∧ Resources (context second) =
          <[sidecarResolverId :=
              resolverResource functionId dataSourceName typeName upper]>
            (Resources ctx).
Proof.
  intros lower upper first second.
  assert (resolverId typeName lower = resolverId typeName upper) as Hid.
  { unfold resolverId, lower, upper. cbn [JS.substring_from].
    by rewrite toUpperCase_idempotent. }
  split; [done|].
  destruct (resolverId typeName upper) as [sidecarResolverId|] eqn:Hupper;
    [|done].
  exists sidecarResolverId. split; [done|].
  unfold second, first.
  rewrite (createSidecarResolver_run _ _ _ upper sidecarResolverId) by done.
  rewrite (createSidecarResolver_run _ _ _ lower sidecarResolverId) by done.
  cbn [context Resources]. apply insert_insert_eq.
Qed.

End Identifiers.

(** ** The two address templates *)

Section Templates.

Implicit Types (name s pat : string) (region : option string).

Lemma replace_first_length pat s :
  JS.includes pat s = true →
  String.length (JS.replace_first pat s) + String.length pat = String.length s.
Proof.
  induction s as [|c s IH]; rewrite replace_first_unfold, includes_unfold;
    destruct (String.prefix pat _) eqn:Hp.
  - intros _. apply prefix_spec in Hp as [t ->].
    rewrite substring_from_app, length_append. lia.
  - done.
  - intros _. apply prefix_spec in Hp as [t ->].
    rewrite substring_from_app, length_append. lia.
  - simpl. intros Hs. rewrite <-(IH Hs). lia.
Qed.

Lemma lambdaArnKey_injective name name' region :
  lambdaArnKey name region = lambdaArnKey name' region → name = name'.
Proof.
  unfold lambdaArnKey. destruct (JS.truthy region); intros Heq.
  - by do 3 apply append_cancel_l in Heq.
  - by apply append_cancel_l in Heq.
Qed.

(** X11: [removeEnvReference] shortens a name by the seven characters of
    [-${env}] when the name contains it and leaves every other name as it
    is; the two address templates of [lambdaArnResource] are the same
    string exactly when the name does not contain [-${env}]. *)
Theorem templates_differ_iff name region :
  (JS.includes "-${env}" name = true →
   String.length (removeEnvReference name) + 7 = String.length name)
  ∧ (JS.includes "-${env}" name = false → removeEnvReference name = name)
  ∧ (lambdaArnKey (removeEnvReference name) region = lambdaArnKey name region
     ↔ JS.includes "-${env}" name = false).
Proof.
  split; [apply (replace_first_length "-${env}")|].
  split; [apply replace_first_absent|]. split.
  - intros Heq%lambdaArnKey_injective.
    destruct (JS.includes "-${env}" name) eqn:Hin; [|done].
    apply (replace_first_length "-${env}") in Hin.
    unfold removeEnvReference in Heq. rewrite Heq in Hin. simpl in Hin. lia.
  - intros Hin. unfold removeEnvReference. by rewrite replace_first_absent.
Qed.

End Templates.

(** ** The further properties at concrete inputs *)

Lemma Widget_hasModel : hasModel Fixture.Widget.
Proof.
  exists [Fixture.modelDirective; Fixture.sidecar "myFn-${env}"],
    Fixture.modelDirective.
  split; [reflexivity|]. split; [|reflexivity]. apply elem_of_cons. by left.
Qed.

Lemma Gadget_hasModel : hasModel Fixture.Gadget.
Proof.
  exists [Fixture.sidecar "myFn-${env}"; Fixture.modelDirective],
    Fixture.modelDirective.
  split; [reflexivity|]. split; [|reflexivity].
  apply elem_of_cons. right. apply elem_of_cons. by left.
Qed.

Lemma object_frame_witness :
  let o := @object Fixture.imports Fixture.Widget
             (Fixture.sidecar "myFn-${env}") emptyContext in
  Resources (context o) !! "TodoTable" = Resources emptyContext !! "TodoTable"
  ∧ stackMapping (context o) !! "TodoTable"
    = stackMapping emptyContext !! "TodoTable".
Proof.
  apply (proj1 (@object_frame Fixture.imports Fixture.Widget
                  (Fixture.sidecar "myFn-${env}") emptyContext "TodoTable")).
  - rewrite !elem_of_cons, elem_of_nil. intros [?|[?|[?|[]]]]; discriminate.
  - intros op. unfold operations. rewrite !elem_of_cons, elem_of_nil.
    intros [->|[->|[->|[->|[->|[]]]]]]; discriminate.
Defined.

Lemma second_type_shares_witness :
  let first := @object Fixture.imports Fixture.Widget
                 (Fixture.sidecar "myFn-${env}") emptyContext in
  calls (@createLambdaFunctionResources Fixture.imports
           (Fixture.sidecar "myFn-${env}") (context first)) = [].
Proof.
  intros first.
  destruct (@second_type_shares Fixture.imports Fixture.Widget Fixture.Gadget
              (Fixture.sidecar "myFn-${env}") emptyContext
              Widget_hasModel Gadget_hasModel) as (Hbuilt & _).
  fold first in Hbuilt. by rewrite Hbuilt.
Defined.

Lemma object_twice_witness :
  let first := @object Fixture.imports Fixture.Widget
                 (Fixture.sidecar "myFn-${env}") emptyContext in
  let second := @object Fixture.imports Fixture.Widget
                  (Fixture.sidecar "myFn-${env}") (context first) in
  context second = context first
  ∧ calls second
    = concat (@attachment Fixture.imports (Fixture.sidecar "myFn-${env}")
                <$> @operations Fixture.imports Fixture.Widget).
Proof.
  intros first second.
  destruct (@object_twice Fixture.imports Fixture.Widget
              (Fixture.sidecar "myFn-${env}") emptyContext)
    as (Hctx & _ & Hcalls).
  split; [exact Hctx | exact (Hcalls Widget_hasModel)].
Defined.

Lemma builder_creates_missing_witness :
  calls (@createLambdaFunctionResources Fixture.imports (Fixture.sidecar "myFn")
           emptyContext)
  = @sharedCreations Fixture.imports (Fixture.sidecar "myFn").
Proof.
  destruct (@builder_creates_missing Fixture.imports (Fixture.sidecar "myFn")
              emptyContext (model_keys_distinct "myFn" None)) as (Hcalls & _).
  exact Hcalls.
Defined.

Lemma shared_established_witness :
  @sharedOrFree Fixture.imports (Fixture.sidecar "myFn-${env}")
    (Resources (context (@object Fixture.imports Fixture.Widget
                           (Fixture.sidecar "myFn-${env}") emptyContext))).
Proof.
  apply (@shared_established Fixture.imports Fixture.Widget
           (Fixture.sidecar "myFn-${env}") emptyContext Widget_hasModel
           (model_keys_distinct "myFn-${env}" None)).
  - intros key op Hkey _.
    exact (model_keys_free "myFn-${env}" None key op.1 op.2 Hkey).
  - repeat split; left; apply lookup_empty.
Defined.

Lemma fixed_resolver_ids_distinct_witness :
  ("Query", "get") = ("Query", "get") ∧ "Widget" = "Widget".
Proof.
  apply (fixed_resolver_ids_distinct "Widget" "Widget"
           ("Query", "get") ("Query", "get")).
  - rewrite !elem_of_cons. auto.
  - rewrite !elem_of_cons. auto.
  - reflexivity.
Defined.

Lemma templates_differ_iff_witness :
  String.length (removeEnvReference "myFn-${env}") + 7
  = String.length "myFn-${env}".
Proof.
  apply (proj1 (templates_differ_iff "myFn-${env}" None)). reflexivity.
Defined.
